(** * The Minesweeper board and the knowledge engine of its player
    (src/minesweeper.py)

    A shallow embedding of the classes [Minesweeper], [Sentence] and
    [MinesweeperAI]: every method is a function on explicit state, a Python
    [set] of coordinates is a [gset (Z * Z)], the [knowledge] list is a
    [list] of sentences read and deleted by index, the field of the board is
    a list of rows, and Python's unbounded [int] is [Z].

    A method that mutates [self] returns the new state.  A Python exception
    is the result [None] of an [option]; in the engine only the index
    accesses and the [del] of the pruning loops can raise one, so only they
    (and [add_knowledge], which runs them) live in [option]; on the board
    the index accesses of the field can.  What [random.randrange] returns
    is a parameter of the constructor of the board. *)

From stdpp Require Import gmap list.
From Stdlib Require Import ZArith Lia.

#[local] Set Warnings "-clear-no-such-hyp".

Abbreviation cell := (Z * Z)%type.

(** ** Python containers *)

(** [set.remove(x)]: raises [KeyError] ([None]) when [x] is not a member. *)
Definition set_remove (X : gset cell) (c : cell) : option (gset cell) :=
  if decide (c ∈ X) then Some (X ∖ {[ c ]}) else None.

(** [del l[i]]: raises [IndexError] ([None]) when [i] is out of range. *)
Definition list_del {A} (l : list A) (i : nat) : option (list A) :=
  if decide (i < length l) then Some (delete i l) else None.

(** The order in which Python iterates over a [set] is fixed for a given
    set object but not specified.  [elements] stands for it; the loops that
    iterate over a set are shown below not to depend on the order. *)
Definition set_iter (X : gset cell) : list cell := elements X.


(** [l[i]] for an [int]: a negative index counts from the end of the
    list, and an index outside the list raises [IndexError] ([None]). *)
Definition py_get {A} (l : list A) (i : Z) : option A :=
  if decide (0 ≤ i)%Z then l !! Z.to_nat i
  else if decide (- Z.of_nat (length l) ≤ i)%Z
       then l !! Z.to_nat (Z.of_nat (length l) + i)
       else None.

(** [l[i] = x], with the same indices. *)
Definition py_set {A} (l : list A) (i : Z) (x : A) : option (list A) :=
  if decide (0 ≤ i < Z.of_nat (length l))%Z
  then Some (<[Z.to_nat i := x]> l)
  else if decide (- Z.of_nat (length l) ≤ i < 0)%Z
       then Some (<[Z.to_nat (Z.of_nat (length l) + i) := x]> l)
       else None.

(** [range(a, b)] *)
Definition py_range (a b : Z) : list Z := seqZ a (b - a).

(** ** class Minesweeper *)

Module Minesweeper.

Record t := mk {
  height : Z;
  width : Z;
  mines : gset cell;
  board : list (list bool);
  mines_found : gset cell
}.

(** Lines 19-24: the field without mines, built row by row. *)
Definition empty_board (height width : Z) : list (list bool) :=
  foldl (λ board _,
           board ++ [foldl (λ row _, row ++ [false]) [] (py_range 0 width)])
        [] (py_range 0 height).

(** Lines 27-32: the loop that adds mines.  What [random.randrange]
    returns is not a function of the state: the pairs that the two calls of
    each iteration return are the list [draws].  [None] is an exception
    ([ValueError] of [randrange] for a height or width that is not positive,
    [IndexError]) or the end of [draws] with the loop still running. *)
Fixpoint place (height width : Z) (draws : list cell) (n : Z)
    (ms : gset cell) (bd : list (list bool))
  : option (gset cell * list (list bool)) :=
  if decide (Z.of_nat (size ms) ≠ n) then
    match draws with
    | [] => None
    | (i, j) :: draws =>
        if decide (height ≤ 0 ∨ width ≤ 0)%Z then None
        else
          row ← py_get bd i;
          v ← py_get row j;
          if negb v then
            row' ← py_set row j true;
            bd' ← py_set bd i row';
            place height width draws n ({[ (i, j) ]} ∪ ms) bd'
          else place height width draws n ms bd
    end
  else Some (ms, bd).

(** [__init__], given what [random.randrange] returns. *)
Definition init (height width mines : Z) (draws : list cell) : option t :=
  '(ms, bd) ← place height width draws mines ∅ (empty_board height width);
  Some (mk height width ms bd ∅).

Definition is_mine (b : t) (c : cell) : option bool :=
  let '(i, j) := c in
  row ← py_get (board b) i;
  py_get row j.

(** The body of the loops of [nearby_mines], on the local variable
    [count]. *)
Definition nearby_visit (b : t) (c : cell) (count : Z) (i j : Z)
  : option Z :=
  if decide ((i, j) = c) then Some count
  else if decide ((0 ≤ i < height b)%Z ∧ (0 ≤ j < width b)%Z) then
    row ← py_get (board b) i;
    v ← py_get row j;
    if v : bool then Some (count + 1)%Z else Some count
  else Some count.

Definition nearby_mines (b : t) (c : cell) : option Z :=
  foldl (λ acc i,
           foldl (λ acc j, count ← acc; nearby_visit b c count i j)
                 acc (py_range (c.2 - 1) (c.2 + 2)))
        (Some 0%Z) (py_range (c.1 - 1) (c.1 + 2)).

Definition won (b : t) : bool := bool_decide (mines_found b = mines b).

End Minesweeper.

(** ** class Sentence *)

Module Sentence.

Record t := mk { cells : gset cell; count : Z }.

(** [__eq__] compares [cells] and [count]: this is Leibniz equality of
    the record, which is decidable. *)
#[global] Instance eq_dec : EqDecision t.
Proof. solve_decision. Defined.

Definition known_mines (s : t) : gset cell :=
  if decide (Z.of_nat (size (cells s)) = count s) then cells s else ∅.

Definition known_safes (s : t) : gset cell :=
  if decide (count s = 0%Z) then cells s else ∅.

(** [if cell in self.cells: self.count -= 1; self.cells.remove(cell)]:
    the membership test guards the [remove], which therefore cannot
    raise. *)
Definition mark_mine (s : t) (c : cell) : t :=
  if decide (c ∈ cells s)
  then {| cells := cells s ∖ {[ c ]}; count := (count s - 1)%Z |}
  else s.

(** [try: self.cells.remove(cell) except: pass]: the [KeyError] of an
    absent cell is caught and dropped. *)
Definition mark_safe (s : t) (c : cell) : t :=
  match set_remove (cells s) c with
  | Some X => {| cells := X; count := count s |}
  | None => s
  end.

End Sentence.

(** ** class MinesweeperAI *)

Module MinesweeperAI.

Record t := mk {
  height : Z;
  width : Z;
  moves_made : gset cell;
  mines : gset cell;
  safes : gset cell;
  knowledge : list Sentence.t
}.

(** [__init__] *)
Definition init (height width : Z) : t :=
  {| height := height; width := width; moves_made := ∅; mines := ∅;
     safes := ∅; knowledge := [] |}.

Definition set_knowledge (ai : t) (K : list Sentence.t) : t :=
  {| height := height ai; width := width ai; moves_made := moves_made ai;
     mines := mines ai; safes := safes ai; knowledge := K |}.

Definition mark_mine (ai : t) (c : cell) : t :=
  {| height := height ai; width := width ai; moves_made := moves_made ai;
     mines := {[ c ]} ∪ mines ai; safes := safes ai;
     knowledge := (λ s, Sentence.mark_mine s c) <$> knowledge ai |}.

Definition mark_safe (ai : t) (c : cell) : t :=
  {| height := height ai; width := width ai; moves_made := moves_made ai;
     mines := mines ai; safes := {[ c ]} ∪ safes ai;
     knowledge := (λ s, Sentence.mark_safe s c) <$> knowledge ai |}.

Definition is_cell_valid (ai : t) (c : cell) : bool :=
  let '(x, y) := c in
  if (x <? 0)%Z || (height ai <=? x)%Z || (y <? 0)%Z || (width ai <=? y)%Z
  then false else true.

(** *** add_knowledge, lines 203-206: record the move, mark it safe *)
Definition record_move (ai : t) (c : cell) : t :=
  mark_safe
    {| height := height ai; width := width ai;
       moves_made := {[ c ]} ∪ moves_made ai;
       mines := mines ai; safes := safes ai; knowledge := knowledge ai |}
    c.

(** *** lines 208-219: the sentence of the neighbourhood *)

(** [range(-1, 2)] *)
Definition offsets : list Z := [-1; 0; 1]%Z.

(** The body of the two nested loops, on the pair of the local variables
    [cells] and [count]. *)
Definition visit (ai : t) (c : cell) (acc : gset cell * Z) (i j : Z)
  : gset cell * Z :=
  let '(x, y) := c in
  let '(cs, cnt) := acc in
  if is_cell_valid ai ((x + i)%Z, (y + j)%Z) then
    if decide (((x + i)%Z, (y + j)%Z) ∈ mines ai) then (cs, (cnt - 1)%Z)
    else if decide (((x + i)%Z, (y + j)%Z) ∉ moves_made ai)
         then ({[ ((x + i)%Z, (y + j)%Z) ]} ∪ cs, cnt)
         else (cs, cnt)
  else (cs, cnt).

Definition new_sentence (ai : t) (c : cell) (count : Z) : Sentence.t :=
  let '(cs, cnt) :=
    foldl (λ acc i, foldl (λ acc j, visit ai c acc i j) acc offsets)
          (∅, count) offsets in
  Sentence.mk cs cnt.

(** The state when line 219 has appended the new sentence. *)
Definition before_closure (ai : t) (c : cell) (count : Z) : t :=
  let ai1 := record_move ai c in
  set_knowledge ai1 (knowledge ai1 ++ [new_sentence ai1 c count]).

(** *** lines 221-228: one scan that marks known mines and known safes *)

(** The body of [for sentence in self.knowledge] at index [k].  The
    sentence is a shared object: the marking of its known mines changes
    it, and [known_safes] is then asked of the changed sentence, which is
    read again at index [k]. *)
Definition closure_at (ai : t) (k : nat) : t :=
  match knowledge ai !! k with
  | None => ai
  | Some s =>
      let ai1 := foldl mark_mine ai (set_iter (Sentence.known_mines s)) in
      match knowledge ai1 !! k with
      | None => ai1
      | Some s' => foldl mark_safe ai1 (set_iter (Sentence.known_safes s'))
      end
  end.

Definition closure (ai : t) : t :=
  foldl closure_at ai (seq 0 (length (knowledge ai))).

Definition after_closure (ai : t) (c : cell) (count : Z) : t :=
  closure (before_closure ai c count).

(** *** lines 230-248: removal of empty and of repeated cell sets

    The two [while] loops, on the list [K], the local variable [length]
    (here [len]) and the indices [i] and [j].  [fuel] bounds the number
    of iterations; [None] is an [IndexError] or the end of the fuel. *)

Fixpoint prune_inner (fuel : nat) (K : list Sentence.t) (len i j : nat)
  : option (list Sentence.t * nat) :=
  match fuel with
  | O => None
  | S fuel =>
      if decide (j < len) then
        if decide (i ≠ j) then
          si ← K !! i;
          sj ← K !! j;
          if decide (Sentence.cells si = Sentence.cells sj) then
            K' ← list_del K j;
            prune_inner fuel K' (len - 1) i j
          else prune_inner fuel K len i (j + 1)
        else prune_inner fuel K len i (j + 1)
      else Some (K, len)
  end.

Fixpoint prune_outer (fuel : nat) (K : list Sentence.t) (len i : nat)
  : option (list Sentence.t) :=
  match fuel with
  | O => None
  | S fuel =>
      if decide (i < len) then
        si ← K !! i;
        if decide (size (Sentence.cells si) = 0) then
          K' ← list_del K i;
          prune_outer fuel K' (len - 1) i
        else
          '(K', len') ← prune_inner (S len) K len i i;
          prune_outer fuel K' len' (i + 1)
      else Some K
  end.

Definition prune (K : list Sentence.t) : option (list Sentence.t) :=
  prune_outer (S (length K)) K (length K) 0.

(** *** lines 250-267: sentences derived from a sentence and a subset *)

(** The body of the inner loop, for [s1] and one [s2] of
    [self.knowledge[i:]]: what it appends to [new_knowledges]. *)
Definition infer_pair (s1 s2 : Sentence.t) : list Sentence.t :=
  let s1_len := size (Sentence.cells s1) in
  let s2_len := size (Sentence.cells s2) in
  if decide (s2_len = 0) then []
  else if decide (s2_len < s1_len ∧ Sentence.cells s2 ⊆ Sentence.cells s1)
  then [Sentence.mk (Sentence.cells s1 ∖ Sentence.cells s2)
                    (Sentence.count s1 - Sentence.count s2)%Z]
  else if decide (s1_len < s2_len ∧ Sentence.cells s1 ⊆ Sentence.cells s2)
  then [Sentence.mk (Sentence.cells s2 ∖ Sentence.cells s1)
                    (Sentence.count s2 - Sentence.count s1)%Z]
  else [].

(** [new_knowledges]: at [s1 :: r] the slice [self.knowledge[i:]] is
    [s1 :: r] itself. *)
Fixpoint infer (K : list Sentence.t) : list Sentence.t :=
  match K with
  | [] => []
  | s1 :: r =>
      (if decide (size (Sentence.cells s1) = 0) then []
       else s2 ← s1 :: r; infer_pair s1 s2)
      ++ infer r
  end.

Definition add_knowledge (ai : t) (c : cell) (count : Z) : option t :=
  let ai3 := after_closure ai c count in
  K ← prune (knowledge ai3);
  Some (set_knowledge ai3 (K ++ infer K)).

(** *** The move queries: they return their answer and the state *)

Definition make_safe_move (ai : t) : option cell * t :=
  (find (λ c, bool_decide (c ∉ moves_made ai)) (set_iter (safes ai)), ai).

(** [for i in range(0, height): for j in range(0, width)] *)
Definition make_random_move (ai : t) : option cell * t :=
  (find (λ c, bool_decide (c ∉ mines ai) && bool_decide (c ∉ moves_made ai))
        (i ← seqZ 0 (height ai); j ← seqZ 0 (width ai); [(i, j)]), ai).

(** *** Sequences of calls on one engine *)

Inductive op :=
| MarkMine (c : cell)
| MarkSafe (c : cell)
| AddKnowledge (c : cell) (count : Z)
| SafeMove
| RandomMove.

Definition exec (ai : t) (o : op) : option t :=
  match o with
  | MarkMine c => Some (mark_mine ai c)
  | MarkSafe c => Some (mark_safe ai c)
  | AddKnowledge c n => add_knowledge ai c n
  | SafeMove => Some (snd (make_safe_move ai))
  | RandomMove => Some (snd (make_random_move ai))
  end.

Fixpoint run (ai : t) (ops : list op) : option t :=
  match ops with
  | [] => Some ai
  | o :: ops => ai' ← exec ai o; run ai' ops
  end.

End MinesweeperAI.

Import MinesweeperAI.

(** * Definitions for the statements about the engine *)

(** ** The neighbourhood of a cell *)

(** The coordinates that the two nested loops of lines 211-212 visit, in
    their order: the 3 x 3 block around [c], [c] included. *)
Definition block (c : cell) : list cell :=
  let '(x, y) := c in i ← offsets; j ← offsets; [((x + i)%Z, (y + j)%Z)].

(** The body of the loops, [visit], as a function of the coordinate it
    looks at. *)
Definition visit_cell (ai : t) (acc : gset cell * Z) (c' : cell)
  : gset cell * Z :=
  if is_cell_valid ai c' then
    if decide (c' ∈ mines ai) then (acc.1, (acc.2 - 1)%Z)
    else if decide (c' ∉ moves_made ai) then ({[ c' ]} ∪ acc.1, acc.2)
         else acc
  else acc.

Definition chebyshev (c c' : cell) : Z :=
  Z.max (Z.abs (c'.1 - c.1)) (Z.abs (c'.2 - c.2)).

(** The neighbours of [c]: the coordinates of the block around [c], [c]
    itself left out, that are in the grid. *)
Definition neighbours (ai : t) (c : cell) : list cell :=
  filter (λ c', c' ≠ c ∧ is_cell_valid ai c' = true) (block c).

(** The number of known mines among the neighbours of [c]: what the
    specification takes off the count of the new sentence. *)
Definition known_mine_neighbours (ai : t) (c : cell) : nat :=
  length (filter (λ c', c' ∈ mines ai) (neighbours ai c)).

(** ** Derived sentences *)

(** The sentence that [a] and a sentence [b] with a strict subset of its
    cells yield (lines 263 and 265). *)
Definition difference_sentence (a b : Sentence.t) : Sentence.t :=
  Sentence.mk (Sentence.cells a ∖ Sentence.cells b)
              (Sentence.count a - Sentence.count b)%Z.

(** ** Relations between states *)

(** Nothing has left the three sets between [ai] and [ai']. *)
Definition grows (ai ai' : t) : Prop :=
  moves_made ai ⊆ moves_made ai' ∧ mines ai ⊆ mines ai' ∧
  safes ai ⊆ safes ai'.

(** No held sentence has a cell that is a known mine. *)
Definition mines_resolved (ai : t) : Prop :=
  ∀ s c, s ∈ knowledge ai → c ∈ Sentence.cells s → c ∉ mines ai.

(** The sentence [s] that was at index [k] when a scan started, followed
    into the state [ai] of the scan: the sentence now at [k] has lost cells
    only, each lost cell is a known mine or a known safe, the count is that
    of [s] while no cell of [s] is a known mine, and the cells beyond the
    count are as many as in [s] while no cell of [s] is a known safe. *)
Definition tracked (k : nat) (s : Sentence.t) (ai : t) : Prop :=
  ∃ s', knowledge ai !! k = Some s' ∧
        Sentence.cells s' ⊆ Sentence.cells s ∧
        Sentence.cells s ∖ Sentence.cells s' ⊆ mines ai ∪ safes ai ∧
        (Sentence.cells s ## mines ai →
         Sentence.count s' = Sentence.count s) ∧
        (Sentence.cells s ## safes ai →
         (Z.of_nat (size (Sentence.cells s')) - Sentence.count s' =
          Z.of_nat (size (Sentence.cells s)) - Sentence.count s)%Z).

(** ** States and calls of the examples *)

(** The two sentences A and B of the example of subset inference, and the
    sentence D that they yield. *)
Definition sentence_A : Sentence.t :=
  Sentence.mk {[ (0, 0); (0, 1); (0, 2) ]}%Z 1.

Definition sentence_B : Sentence.t :=
  Sentence.mk {[ (0, 0); (0, 1) ]}%Z 1.

Definition sentence_D : Sentence.t :=
  Sentence.mk {[ (0, 2) ]}%Z 0.

(** An engine on a 5 x 5 grid that holds A and B and knows nothing else. *)
Definition held_A_B : t :=
  mk 5 5 ∅ ∅ ∅ [sentence_A; sentence_B].

(** The engine after [add_knowledge((4, 4), 0)] on [held_A_B]. *)
Definition held_A_B_D : t :=
  mk 5 5 {[ (4, 4) ]}%Z ∅ {[ (3, 3); (3, 4); (4, 3); (4, 4) ]}%Z
     [sentence_A; sentence_B; sentence_D].

(** The engine after [add_knowledge((4, 3), 0)] on [held_A_B_D]. *)
Definition held_B : t :=
  mk 5 5 {[ (4, 3); (4, 4) ]}%Z ∅
     {[ (0, 2); (3, 2); (3, 3); (3, 4); (4, 2); (4, 3); (4, 4) ]}%Z
     [sentence_B].

(** A 2 x 3 grid with its one mine at (0,0): the engine after
    [add_knowledge((1, 0), 1)] and [add_knowledge((1, 1), 1)]. *)
Definition corner_game : t :=
  mk 2 3 {[ (1, 0); (1, 1) ]}%Z ∅ {[ (1, 0); (1, 1) ]}%Z
     [Sentence.mk {[ (0, 0); (0, 1) ]}%Z 1;
      Sentence.mk {[ (0, 0); (0, 1); (0, 2); (1, 2) ]}%Z 1;
      Sentence.mk {[ (0, 2); (1, 2) ]}%Z 0].

(** A 1 x 5 grid with its one mine at (0,0): the engine after
    [add_knowledge((0, 1), 1)]. *)
Definition row_first : t :=
  mk 1 5 {[ (0, 1) ]}%Z ∅ {[ (0, 1) ]}%Z
     [Sentence.mk {[ (0, 0); (0, 2) ]}%Z 1].

(** A 1 x 5 grid with its one mine at (0,2): the engine after
    [add_knowledge((0, 4), 0)] and [add_knowledge((0, 1), 1)]. *)
Definition row_second : t :=
  mk 1 5 {[ (0, 1); (0, 4) ]}%Z ∅ {[ (0, 1); (0, 3); (0, 4) ]}%Z
     [Sentence.mk {[ (0, 0); (0, 2) ]}%Z 1].

(** A 2 x 7 grid with mines at (0,0) and (0,2): three cells are revealed. *)
Definition three_calls : list op :=
  [AddKnowledge (1, 0)%Z 1; AddKnowledge (1, 1)%Z 2; AddKnowledge (1, 6)%Z 0].

(** The engine after [three_calls]. *)
Definition after_three_calls : t :=
  mk 2 7 {[ (1, 0); (1, 1); (1, 6) ]}%Z ∅
     {[ (0, 5); (0, 6); (1, 0); (1, 1); (1, 5); (1, 6) ]}%Z
     [Sentence.mk {[ (0, 0); (0, 1) ]}%Z 1;
      Sentence.mk {[ (0, 0); (0, 1); (0, 2); (1, 2) ]}%Z 2;
      Sentence.mk {[ (0, 2); (1, 2) ]}%Z 1;
      Sentence.mk {[ (0, 2); (1, 2) ]}%Z 1;
      Sentence.mk {[ (0, 0); (0, 1) ]}%Z 1].

(** A 2 x 4 grid: (1,0) is revealed with count 2, then (1,1) with count 1,
    which the board of no game answers.  The engine after the two calls. *)
Definition after_two_calls : t :=
  mk 2 4 {[ (1, 0); (1, 1) ]}%Z {[ (0, 0); (0, 1) ]}%Z
     {[ (1, 0); (1, 1) ]}%Z
     [Sentence.mk {[ (0, 2); (1, 2) ]}%Z (-1)].

(** An engine that holds {(0,0),(0,1),(0,2),(0,3)} = 1 and
    {(0,0),(0,1),(0,2)} = 2. *)
Definition held_contradiction : t :=
  mk 5 5 ∅ ∅ ∅
     [Sentence.mk {[ (0, 0); (0, 1); (0, 2); (0, 3) ]}%Z 1;
      Sentence.mk {[ (0, 0); (0, 1); (0, 2) ]}%Z 2].

(** A 3 x 3 grid with one mine, at (1,2): the engine after (0,0) is
    revealed with count 0 and (0,2) with count 1. *)
Definition safes_held : t :=
  mk 3 3 {[ (0, 0); (0, 2) ]}%Z ∅
     {[ (0, 0); (0, 1); (0, 2); (1, 0); (1, 1) ]}%Z
     [Sentence.mk {[ (0, 1); (1, 1); (1, 2) ]}%Z 1].

(** ** What the pruning amounts to *)

(** The sentences of [K] in their order, without those whose cell set is
    empty and without those whose cell set is in [seen] or is the cell set
    of an earlier sentence of [K]: of sentences with the same cells the first
    stays, whatever the counts. *)
Fixpoint keep_first (seen : gset (gset cell)) (K : list Sentence.t)
  : list Sentence.t :=
  match K with
  | [] => []
  | s :: r =>
      if decide (Sentence.cells s = ∅) then keep_first seen r
      else if decide (Sentence.cells s ∈ seen) then keep_first seen r
      else s :: keep_first ({[ Sentence.cells s ]} ∪ seen) r
  end.

(** ** Held sentences and the cells still open *)

(** Every move made is among the safes, and every cell of a held sentence
    is a cell of the grid that is not a move made. *)
Definition open_cells (ai : t) : Prop :=
  moves_made ai ⊆ safes ai ∧
  ∀ s c, s ∈ knowledge ai → c ∈ Sentence.cells s →
         is_cell_valid ai c = true ∧ c ∉ moves_made ai.

(** ** An engine and the mines of a board *)

(** The sentence [s] is true of the set [M] of the cells that are mines:
    its count is the number of its cells that are in [M]. *)
Definition truthful (M : gset cell) (s : Sentence.t) : Prop :=
  Sentence.count s = Z.of_nat (size (Sentence.cells s ∩ M)).

(** What the engine knows is true of [M]: its known mines are mines, its
    safes are not, its moves are among its safes, and its sentences are
    true. *)
Definition consistent (M : gset cell) (ai : t) : Prop :=
  mines ai ⊆ M ∧ safes ai ## M ∧ moves_made ai ⊆ safes ai ∧
  ∀ s, s ∈ knowledge ai → truthful M s.

(** The number of mines among the neighbours of [c]: the count that the
    board gives for [c]. *)
Definition nearby (M : gset cell) (ai : t) (c : cell) : Z :=
  Z.of_nat (length (filter (λ c', c' ∈ M) (neighbours ai c))).

(** A 3 x 3 board whose one mine is at (1,2). *)
Definition one_mine : gset cell := {[ (1, 2)%Z ]}.

(** A 1 x 2 board whose one mine is at (0,1). *)
Definition edge_mine : gset cell := {[ (0, 1)%Z ]}.

(** ** Boards *)

(** The cells of a grid of [h] rows and [w] columns. *)
Definition in_grid (h w : Z) (c : cell) : Prop :=
  (0 ≤ c.1 < h)%Z ∧ (0 ≤ c.2 < w)%Z.

(** The field [bd] has [h] rows of [w] columns and holds [True] exactly at
    the cells of [ms], which are cells of the grid. *)
Definition board_of (h w : Z) (ms : gset cell) (bd : list (list bool))
  : Prop :=
  length bd = Z.to_nat h ∧
  (∀ (i : nat) row, bd !! i = Some row → length row = Z.to_nat w) ∧
  (∀ c, c ∈ ms → in_grid h w c) ∧
  ∀ (i j : nat) row v, bd !! i = Some row → row !! j = Some v →
                       (v = true ↔ (Z.of_nat i, Z.of_nat j) ∈ ms).

Definition board_ok (b : Minesweeper.t) : Prop :=
  board_of (Minesweeper.height b) (Minesweeper.width b)
           (Minesweeper.mines b) (Minesweeper.board b).

(** ** A game of an engine on a board *)

(** The calls of a game: each cell revealed is given to the engine with the
    count that the board answers for it. *)
Definition play (b : Minesweeper.t) (ai : t) (cs : list cell) : option t :=
  foldl (λ acc c,
           ai ← acc;
           n ← Minesweeper.nearby_mines b c;
           add_knowledge ai c n)
        (Some ai) cs.

(** The cells of a grid of [h] rows and [w] columns, row by row. *)
Definition grid (h w : Z) : list cell :=
  i ← seqZ 0 h; pair i <$> seqZ 0 w.

(** What [random.randrange] returns in the making of a 2 x 3 board of two
    mines: the cell (1,2) is drawn twice. *)
Definition sample_draws : list cell := [(1, 2); (1, 2); (0, 0)]%Z.

Definition sample_board : Minesweeper.t :=
  Minesweeper.mk 2 3 {[ (0, 0); (1, 2) ]}%Z
                 [[true; false; false]; [false; false; true]] ∅.

(** * Properties *)

(** ** The pruning loops return, and what they return *)

Section prune.

Implicit Types (K : list Sentence.t) (s : Sentence.t).

Lemma list_del_lt {A} (l : list A) i :
  i < length l → list_del l i = Some (delete i l).
Proof. intros Hi. unfold list_del. by rewrite decide_True. Qed.

Lemma length_delete_lt {A} (l : list A) i :
  i < length l → length (delete i l) = length l - 1.
Proof.
  intros Hi. by apply length_delete, lookup_lt_is_Some_2.
Qed.

Lemma take_delete_here {A} (l : list A) i :
  i < length l → take i (delete i l) = take i l.
Proof.
  intros Hi. rewrite delete_take_drop.
  rewrite take_app_length'; [done|]. rewrite length_take. lia.
Qed.

Lemma drop_delete_here {A} (l : list A) i :
  i < length l → drop i (delete i l) = drop (S i) l.
Proof.
  intros Hi. rewrite delete_take_drop.
  rewrite drop_app_length'; [done|]. rewrite length_take. lia.
Qed.

(** From [j > i] on, the inner loop keeps the first [j] sentences and
    deletes, among the others, those with the cells of [K[i]]. *)
Lemma prune_inner_spec fuel : ∀ K i j si,
  K !! i = Some si → i < j → length K - j < fuel →
  prune_inner fuel K (length K) i j =
    Some (take j K ++
            filter (λ s, Sentence.cells s ≠ Sentence.cells si) (drop j K),
          length (take j K ++
            filter (λ s, Sentence.cells s ≠ Sentence.cells si) (drop j K))).
Proof.
  induction fuel as [|fuel IH]; intros K i j si Hi Hij Hfuel; [lia|].
  simpl. case_decide as Hj.
  - rewrite decide_True by lia. rewrite Hi. simpl.
    destruct (lookup_lt_is_Some_2 K j Hj) as [sj Hsj]. rewrite Hsj. simpl.
    rewrite (drop_S K sj j Hsj), filter_cons.
    case_decide as Heq.
    + rewrite list_del_lt by done. simpl.
      rewrite <- (length_delete_lt K j Hj).
      rewrite (IH (delete j K) i j si).
      * rewrite take_delete_here, drop_delete_here by done.
        rewrite decide_False by (intros Hne; by apply Hne). done.
      * rewrite list_lookup_delete_lt by done. done.
      * done.
      * rewrite length_delete_lt by done. lia.
    + rewrite (IH K i (j + 1) si) by (done || lia).
      rewrite decide_True by (intros Hne; by apply Heq).
      replace (j + 1) with (S j) by lia.
      rewrite (take_S_r K j sj Hsj), <- app_assoc. done.
  - rewrite take_ge, drop_ge by lia. simpl. by rewrite app_nil_r.
Qed.

(** The inner loop as the outer loop starts it, at [j = i]. *)
Lemma prune_inner_start K i si :
  K !! i = Some si →
  prune_inner (S (length K)) K (length K) i i =
    Some (take (S i) K ++
            filter (λ s, Sentence.cells s ≠ Sentence.cells si)
                   (drop (S i) K),
          length (take (S i) K ++
            filter (λ s, Sentence.cells s ≠ Sentence.cells si)
                   (drop (S i) K))).
Proof.
  intros Hi. pose proof (lookup_lt_Some _ _ _ Hi) as Hlt.
  cbn [prune_inner]. rewrite decide_True by done.
  rewrite decide_False by (intros Hne; by apply Hne).
  rewrite (prune_inner_spec (length K) K i (i + 1) si) by (done || lia).
  by replace (i + 1) with (S i) by lia.
Qed.

(** The outer loop from index [i] on: it returns; the first [i]
    sentences stay; what follows them is a sublist of what followed,
    without an empty cell set and without a repeated cell set. *)
Lemma prune_outer_spec fuel : ∀ K i,
  i ≤ length K → length K - i < fuel →
  ∃ K', prune_outer fuel K (length K) i = Some K' ∧
        take i K' = take i K ∧
        drop i K' `sublist_of` drop i K ∧
        Forall (λ s, Sentence.cells s ≠ ∅) (drop i K') ∧
        NoDup (Sentence.cells <$> drop i K').
Proof.
  induction fuel as [|fuel IH]; intros K i Hi Hfuel; [lia|].
  cbn [prune_outer]. case_decide as Hlt.
  - destruct (lookup_lt_is_Some_2 K i Hlt) as [si Hsi].
    rewrite Hsi. cbn [mbind option_bind]. case_decide as Hempty.
    + rewrite list_del_lt by done. cbn [mbind option_bind].
      rewrite <- (length_delete_lt K i Hlt).
      destruct (IH (delete i K) i) as (K' & -> & Htake & Hsub & Hne & Hnd).
      { rewrite length_delete_lt by done. lia. }
      { rewrite length_delete_lt by done. lia. }
      exists K'. split; [done|]. rewrite take_delete_here in Htake by done.
      rewrite drop_delete_here in Hsub by done.
      repeat split; try done.
      rewrite (drop_S K si i Hsi). by apply sublist_cons.
    + rewrite (prune_inner_start K i si Hsi). cbn [mbind option_bind].
      set (K1 := take (S i) K ++
                 filter (λ s, Sentence.cells s ≠ Sentence.cells si)
                        (drop (S i) K)).
      assert (length (take (S i) K) = S i) as Hlen
        by (rewrite length_take; lia).
      assert (length K1 ≤ length K) as HK1.
      { unfold K1. rewrite length_app, Hlen.
        pose proof (length_filter
          (λ s, Sentence.cells s ≠ Sentence.cells si) (drop (S i) K)).
        rewrite length_drop in *. lia. }
      assert (S i ≤ length K1) as HK1'
        by (unfold K1; rewrite length_app; lia).
      replace (i + 1) with (S i) by lia.
      destruct (IH K1 (S i)) as (K' & -> & Htake & Hsub & Hne & Hnd);
        [done | lia |].
      exists K'. split; [done|].
      assert (take (S i) K1 = take (S i) K) as Ht1
        by (unfold K1; by rewrite take_app_length').
      assert (drop (S i) K1 =
              filter (λ s, Sentence.cells s ≠ Sentence.cells si)
                     (drop (S i) K)) as Hd1
        by (unfold K1; by rewrite drop_app_length').
      rewrite Ht1 in Htake. rewrite Hd1 in Hsub.
      assert (K' !! i = Some si) as Hi'.
      { rewrite <- (lookup_take_lt K' (S i) i) by lia. rewrite Htake.
        by rewrite lookup_take_lt by lia. }
      split.
      { apply (f_equal (take i)) in Htake. rewrite !take_take in Htake.
        by replace (i `min` S i) with i in Htake by lia. }
      rewrite (drop_S K' si i Hi'), (drop_S K si i Hsi).
      split; [|split].
      * apply sublist_skip. etrans; [done|]. apply sublist_filter.
      * apply Forall_cons. split; [|done].
        intros Hc. apply Hempty. rewrite Hc. apply size_empty.
      * rewrite fmap_cons. apply NoDup_cons. split; [|done].
        intros (s & Hs & Hin)%list_elem_of_fmap.
        eapply elem_of_sublist in Hin; [|done].
        apply list_elem_of_filter in Hin as [Hin _]. by apply Hin.
  - exists K. rewrite drop_ge by lia. repeat split; try done.
    apply NoDup_nil_2.
Qed.

Lemma prune_spec K :
  ∃ K', prune K = Some K' ∧ K' `sublist_of` K ∧
        Forall (λ s, Sentence.cells s ≠ ∅) K' ∧
        NoDup (Sentence.cells <$> K').
Proof.
  destruct (prune_outer_spec (S (length K)) K 0) as (K' & H & _ & H');
    [lia | lia |].
  exists K'. by rewrite !drop_0 in H'.
Qed.

End prune.

(** ** Subset inference: what is derived, and that nothing is missed *)

Section infer.

Implicit Types (K : list Sentence.t) (s a b : Sentence.t).

Lemma subset_of_sizes (X Y : gset cell) :
  size X < size Y → X ⊆ Y → X ⊂ Y.
Proof.
  intros Hlt Hsub. split; [done|]. intros Hsub'.
  pose proof (subseteq_size _ _ Hsub'). lia.
Qed.

Lemma elem_of_infer_pair s s1 s2 :
  s ∈ infer_pair s1 s2 →
  (Sentence.cells s2 ⊂ Sentence.cells s1 ∧ s = difference_sentence s1 s2) ∨
  (Sentence.cells s1 ⊂ Sentence.cells s2 ∧ s = difference_sentence s2 s1).
Proof.
  unfold infer_pair. cbv zeta. intros Hs.
  repeat case_decide; destruct_and?; try by apply elem_of_nil in Hs.
  - apply list_elem_of_singleton in Hs as ->. left.
    split; [|done]. by apply subset_of_sizes.
  - apply list_elem_of_singleton in Hs as ->. right.
    split; [|done]. by apply subset_of_sizes.
Qed.

Lemma infer_pair_l a b :
  Sentence.cells b ≠ ∅ → Sentence.cells b ⊂ Sentence.cells a →
  infer_pair a b = [difference_sentence a b].
Proof.
  intros Hne Hsub. pose proof (subset_size _ _ Hsub) as Hlt.
  destruct Hsub as [Hsub _].
  unfold infer_pair. cbv zeta.
  rewrite decide_False
    by (intros Hz%size_empty_inv%leibniz_equiv; by apply Hne).
  by rewrite decide_True.
Qed.

Lemma infer_pair_r a b :
  Sentence.cells b ⊂ Sentence.cells a →
  infer_pair b a = [difference_sentence a b].
Proof.
  intros Hsub. pose proof (subset_size _ _ Hsub) as Hlt.
  destruct Hsub as [Hsub _].
  unfold infer_pair. cbv zeta.
  rewrite decide_False by lia.
  rewrite decide_False by (intros [? _]; lia).
  by rewrite decide_True.
Qed.

Lemma elem_of_infer K s :
  s ∈ infer K →
  ∃ a b, a ∈ K ∧ b ∈ K ∧ Sentence.cells b ⊂ Sentence.cells a ∧
         s = difference_sentence a b.
Proof.
  induction K as [|s1 r IH]; cbn [infer]; [by intros ?%elem_of_nil|].
  intros [Hs|Hs]%elem_of_app.
  - case_decide; [by apply elem_of_nil in Hs|].
    apply list_elem_of_bind in Hs as (s2 & Hs & Hs2).
    apply elem_of_infer_pair in Hs as [[? ->]|[? ->]].
    + exists s1, s2. split_and!; try done. apply elem_of_cons; by left.
    + exists s2, s1. split_and!; try done. apply elem_of_cons; by left.
  - destruct (IH Hs) as (a & b & ? & ? & ? & ->).
    exists a, b. split_and!; try done; apply elem_of_cons; by right.
Qed.

Lemma infer_complete K a b :
  Forall (λ s, Sentence.cells s ≠ ∅) K →
  a ∈ K → b ∈ K → Sentence.cells b ⊂ Sentence.cells a →
  difference_sentence a b ∈ infer K.
Proof.
  intros HK Ha Hb Hsub.
  induction K as [|s1 r IH]; [by apply elem_of_nil in Ha|].
  apply Forall_cons in HK as [Hs1 Hr]. cbn [infer].
  rewrite decide_False
    by (intros Hz%size_empty_inv%leibniz_equiv; by apply Hs1).
  apply elem_of_cons in Ha as [->|Ha]; apply elem_of_cons in Hb as [->|Hb].
  - by destruct Hsub as [_ []].
  - apply elem_of_app. left. apply list_elem_of_bind.
    exists b. split; [|apply elem_of_cons; by right].
    rewrite infer_pair_l; [apply list_elem_of_singleton; done| |done].
    rewrite Forall_forall in Hr. by apply Hr.
  - apply elem_of_app. left. apply list_elem_of_bind.
    exists a. split; [|apply elem_of_cons; by right].
    rewrite infer_pair_r by done. by apply list_elem_of_singleton.
  - apply elem_of_app. right. by apply IH.
Qed.

(** A derived cell set is not empty. *)
Lemma infer_nonempty K :
  Forall (λ s, Sentence.cells s ≠ ∅) (infer K).
Proof.
  apply Forall_forall. intros s (a & b & _ & _ & Hsub & ->)%elem_of_infer.
  cbn. intros Hempty. destruct Hsub as [_ Hsub]. apply Hsub.
  intros c Hc. destruct (decide (c ∈ Sentence.cells b)); [done|].
  assert (c ∈ Sentence.cells a ∖ Sentence.cells b) as Hin by set_solver.
  rewrite Hempty in Hin. set_solver.
Qed.

End infer.

(** ** The sentence built for a revealed cell *)

Section new_sentence.

Implicit Types (ai : t) (c : cell).

Lemma visit_as_cell ai x y acc i j :
  visit ai (x, y) acc i j = visit_cell ai acc ((x + i)%Z, (y + j)%Z).
Proof.
  unfold visit, visit_cell. destruct acc as [cs cnt].
  destruct (is_cell_valid ai _); repeat case_decide; reflexivity.
Qed.

Lemma new_sentence_block ai c n :
  new_sentence ai c n =
    Sentence.mk (foldl (visit_cell ai) (∅, n) (block c)).1
                (foldl (visit_cell ai) (∅, n) (block c)).2.
Proof.
  destruct c as [x y]. unfold new_sentence, block, offsets.
  cbn [foldl mbind list_bind app]. rewrite !visit_as_cell.
  by match goal with |- context [let '(_, _) := ?p in _] => destruct p end.
Qed.

(** The loop, on any list of coordinates: the cells it collects and the
    count it is left with. *)
Lemma foldl_visit_cell ai (l : list cell) (cs : gset cell) (cnt : Z) :
  foldl (visit_cell ai) (cs, cnt) l =
    (list_to_set
       (filter (λ c', is_cell_valid ai c' = true ∧ (c' ∉ mines ai) ∧
                      (c' ∉ moves_made ai)) l) ∪ cs,
     (cnt - Z.of_nat (length
       (filter (λ c', is_cell_valid ai c' = true ∧ c' ∈ mines ai) l)))%Z).
Proof.
  revert cs cnt. induction l as [|c' l IH]; intros cs cnt.
  { cbn. f_equal; [set_solver | lia]. }
  cbn [foldl]. rewrite !filter_cons. unfold visit_cell at 2.
  destruct (is_cell_valid ai c') eqn:Hv; cbn [fst snd].
  - destruct (decide (c' ∈ mines ai)) as [Hm|Hm].
    + rewrite IH, decide_False by tauto. rewrite decide_True by done.
      cbn [length]. f_equal. lia.
    + rewrite (decide_False (P := _ ∧ c' ∈ _)) by tauto.
      destruct (decide (c' ∉ moves_made ai)) as [Hmv|Hmv].
      * rewrite IH, decide_True by done. rewrite list_to_set_cons.
        f_equal. set_solver.
      * rewrite IH, decide_False by tauto. done.
  - rewrite IH, !decide_False by (intros [? _]; done). done.
Qed.

Lemma elem_of_offsets (i : Z) : i ∈ offsets ↔ (-1 ≤ i ≤ 1)%Z.
Proof.
  unfold offsets. rewrite !elem_of_cons, elem_of_nil. lia.
Qed.

Lemma elem_of_block c c' : c' ∈ block c ↔ (chebyshev c c' ≤ 1)%Z.
Proof.
  destruct c as [x y], c' as [x' y']. unfold block, chebyshev. cbn [fst snd].
  rewrite list_elem_of_bind. split.
  - intros (i & (j & Hc & Hj%elem_of_offsets)%list_elem_of_bind
              & Hi%elem_of_offsets).
    apply list_elem_of_singleton in Hc. injection Hc as -> ->. lia.
  - intros H. exists (x' - x)%Z. split; [|apply elem_of_offsets; lia].
    apply list_elem_of_bind. exists (y' - y)%Z.
    split; [|apply elem_of_offsets; lia].
    apply list_elem_of_singleton. f_equal; lia.
Qed.

Lemma NoDup_block c : NoDup (block c).
Proof.
  destruct c as [x y]. unfold block, offsets. cbn [mbind list_bind app].
  repeat (apply NoDup_cons; split;
          [rewrite ?elem_of_cons, elem_of_nil; intros H;
           repeat (destruct H as [[=]|H]; [lia|]); done|]).
  apply NoDup_nil_2.
Qed.

Lemma is_cell_valid_record_move ai c c' :
  is_cell_valid (record_move ai c) c' = is_cell_valid ai c'.
Proof. by destruct c'. Qed.

(** The cells of the new sentence. *)
Lemma elem_of_new_sentence ai c n c' :
  c' ∈ Sentence.cells (new_sentence ai c n) ↔
  (chebyshev c c' ≤ 1)%Z ∧ is_cell_valid ai c' = true ∧
  (c' ∉ mines ai) ∧ (c' ∉ moves_made ai).
Proof.
  rewrite new_sentence_block, foldl_visit_cell. cbn [Sentence.cells fst].
  rewrite elem_of_union, elem_of_list_to_set, list_elem_of_filter.
  rewrite elem_of_block. set_solver.
Qed.

(** The count of the new sentence. *)
Lemma count_new_sentence ai c n :
  Sentence.count (new_sentence ai c n) =
  (n - Z.of_nat (length
     (filter (λ c', is_cell_valid ai c' = true ∧ c' ∈ mines ai)
             (block c))))%Z.
Proof. by rewrite new_sentence_block, foldl_visit_cell. Qed.

End new_sentence.

(** ** What the steps of the engine keep *)

Section engine.

Implicit Types (ai : t) (c : cell) (s : Sentence.t).

Lemma foldl_keeps {A B} (P : A → Prop) (f : A → B → A) (l : list B) :
  (∀ a b, P a → P (f a b)) → ∀ a, P a → P (foldl f a l).
Proof. intros Hf. induction l as [|b l IH]; cbn; auto. Qed.

(** Whatever both markings keep, the scan of lines 221-228 keeps. *)
Lemma closure_at_keeps (P : t → Prop) :
  (∀ ai c, P ai → P (mark_mine ai c)) →
  (∀ ai c, P ai → P (mark_safe ai c)) →
  ∀ ai k, P ai → P (closure_at ai k).
Proof.
  intros Hmine Hsafe ai k HP. unfold closure_at.
  destruct (knowledge ai !! k) as [s|]; [|done].
  assert (P (foldl mark_mine ai (set_iter (Sentence.known_mines s))))
    by (by apply foldl_keeps).
  cbv zeta. destruct (knowledge _ !! k); [|done]. by apply foldl_keeps.
Qed.

Lemma closure_keeps (P : t → Prop) :
  (∀ ai c, P ai → P (mark_mine ai c)) →
  (∀ ai c, P ai → P (mark_safe ai c)) →
  ∀ ai, P ai → P (closure ai).
Proof.
  intros Hmine Hsafe ai HP. unfold closure.
  apply foldl_keeps; [|done]. intros. by apply closure_at_keeps.
Qed.

(** [add_knowledge] returns, and its result is made of the sentences
    [K] that the pruning leaves and of those derived from [K]. *)
Lemma add_knowledge_spec ai c n :
  ∃ K, prune (knowledge (after_closure ai c n)) = Some K ∧
       add_knowledge ai c n =
         Some (set_knowledge (after_closure ai c n) (K ++ infer K)) ∧
       K `sublist_of` knowledge (after_closure ai c n) ∧
       Forall (λ s, Sentence.cells s ≠ ∅) K ∧
       NoDup (Sentence.cells <$> K).
Proof.
  destruct (prune_spec (knowledge (after_closure ai c n)))
    as (K & HK & Hsub & Hne & Hnd).
  exists K. unfold add_knowledge. by rewrite HK.
Qed.

(** *** The three sets only grow *)

Lemma grows_refl ai : grows ai ai.
Proof. by unfold grows. Qed.

Lemma grows_trans ai1 ai2 ai3 : grows ai1 ai2 → grows ai2 ai3 → grows ai1 ai3.
Proof. unfold grows. set_solver. Qed.

Lemma mark_mine_grows ai c : grows ai (mark_mine ai c).
Proof. unfold grows. cbn. set_solver. Qed.

Lemma mark_safe_grows ai c : grows ai (mark_safe ai c).
Proof. unfold grows. cbn. set_solver. Qed.

Lemma before_closure_grows ai c n : grows ai (before_closure ai c n).
Proof. unfold grows. cbn. set_solver. Qed.

Lemma closure_grows ai : grows ai (closure ai).
Proof.
  apply (closure_keeps (grows ai)); [| |apply grows_refl].
  - intros ai' c H. eapply grows_trans; [done|apply mark_mine_grows].
  - intros ai' c H. eapply grows_trans; [done|apply mark_safe_grows].
Qed.

Lemma add_knowledge_grows ai c n :
  ∃ ai', add_knowledge ai c n = Some ai' ∧ grows ai ai'.
Proof.
  destruct (add_knowledge_spec ai c n) as (K & _ & -> & _).
  eexists. split; [done|].
  eapply grows_trans; [apply before_closure_grows|].
  apply (closure_grows (before_closure ai c n)).
Qed.

Lemma exec_grows ai o : ∃ ai', exec ai o = Some ai' ∧ grows ai ai'.
Proof.
  destruct o as [c|c|c n| |]; cbn.
  - eexists. split; [done|]. apply mark_mine_grows.
  - eexists. split; [done|]. apply mark_safe_grows.
  - apply add_knowledge_grows.
  - eexists. split; [done|]. apply grows_refl.
  - eexists. split; [done|]. apply grows_refl.
Qed.

Lemma run_grows ops : ∀ ai, ∃ ai', run ai ops = Some ai' ∧ grows ai ai'.
Proof.
  induction ops as [|o ops IH]; intros ai; cbn [run].
  - exists ai. split; [done|]. apply grows_refl.
  - destruct (exec_grows ai o) as (ai1 & -> & H1). cbn.
    destruct (IH ai1) as (ai2 & -> & H2).
    exists ai2. split; [done|]. by eapply grows_trans.
Qed.

(** *** No held sentence has a cell that is a known mine *)

Lemma cells_mark_mine s c :
  Sentence.cells (Sentence.mark_mine s c) = Sentence.cells s ∖ {[ c ]}.
Proof. unfold Sentence.mark_mine. case_decide; cbn; set_solver. Qed.

Lemma cells_mark_safe s c :
  Sentence.cells (Sentence.mark_safe s c) = Sentence.cells s ∖ {[ c ]}.
Proof.
  unfold Sentence.mark_safe, set_remove. case_decide; cbn; set_solver.
Qed.

Lemma mark_mine_resolved ai c :
  mines_resolved ai → mines_resolved (mark_mine ai c).
Proof.
  intros Hinv s c'. cbn.
  intros (s0 & -> & Hs0)%list_elem_of_fmap. rewrite cells_mark_mine.
  intros [Hc' Hne]%elem_of_difference.
  specialize (Hinv s0 c' Hs0 Hc'). set_solver.
Qed.

Lemma mark_safe_resolved ai c :
  mines_resolved ai → mines_resolved (mark_safe ai c).
Proof.
  intros Hinv s c'. cbn.
  intros (s0 & -> & Hs0)%list_elem_of_fmap. rewrite cells_mark_safe.
  intros [Hc' Hne]%elem_of_difference. by apply (Hinv s0 c').
Qed.

Lemma before_closure_resolved ai c n :
  mines_resolved ai → mines_resolved (before_closure ai c n).
Proof.
  intros Hinv s c'. unfold before_closure. cbn [knowledge set_knowledge mines].
  intros [Hs| ->%list_elem_of_singleton]%elem_of_app.
  - revert s c' Hs. apply (mark_safe_resolved _ c). exact Hinv.
  - intros Hc'%elem_of_new_sentence. cbn in Hc'. tauto.
Qed.

Lemma add_knowledge_resolved ai c n :
  mines_resolved ai →
  ∃ ai', add_knowledge ai c n = Some ai' ∧ mines_resolved ai'.
Proof.
  intros Hinv. destruct (add_knowledge_spec ai c n) as (K & _ & -> & Hsub & _).
  eexists. split; [done|].
  assert (mines_resolved (after_closure ai c n)) as Hclo.
  { unfold after_closure. apply (closure_keeps mines_resolved);
      auto using mark_mine_resolved, mark_safe_resolved,
                 before_closure_resolved. }
  assert (∀ s c', s ∈ K → c' ∈ Sentence.cells s →
                  c' ∉ mines (after_closure ai c n)) as HK.
  { intros s c' Hs. apply Hclo. by eapply elem_of_sublist. }
  intros s c'. cbn [knowledge set_knowledge mines].
  intros [Hs|Hs]%elem_of_app; [by apply HK|].
  apply elem_of_infer in Hs as (a & b & Ha & _ & _ & ->). cbn.
  intros [Hc' _]%elem_of_difference. by apply (HK a).
Qed.

Lemma exec_resolved ai o :
  mines_resolved ai → ∃ ai', exec ai o = Some ai' ∧ mines_resolved ai'.
Proof.
  intros Hinv. destruct o as [c|c|c n| |]; cbn.
  - eexists. split; [done|]. by apply mark_mine_resolved.
  - eexists. split; [done|]. by apply mark_safe_resolved.
  - by apply add_knowledge_resolved.
  - by eexists.
  - by eexists.
Qed.

Lemma run_resolved ops : ∀ ai,
  mines_resolved ai → ∃ ai', run ai ops = Some ai' ∧ mines_resolved ai'.
Proof.
  induction ops as [|o ops IH]; intros ai Hinv; cbn [run].
  - by exists ai.
  - destruct (exec_resolved ai o Hinv) as (ai1 & -> & H1). cbn.
    by apply IH.
Qed.

End engine.

(** ** What one scan settles

    A sentence held at index [k] when the scan starts is followed through
    the scan: it only loses cells, each lost cell has become a known mine
    or a known safe, and its count changes by the mines it lost. *)

Section scan.

Variables (k : nat) (s : Sentence.t).

Implicit Types (ai : t) (c : cell).

Lemma tracked_start ai : knowledge ai !! k = Some s → tracked k s ai.
Proof. intros Hk. exists s. split_and!; try done. set_solver. Qed.

Lemma mark_mine_tracked ai c : tracked k s ai → tracked k s (mark_mine ai c).
Proof.
  intros (s' & Hk & Hsub & Hlost & Hzero & Hfull).
  exists (Sentence.mark_mine s' c). cbn [knowledge mines safes mark_mine].
  rewrite list_lookup_fmap, Hk, cells_mark_mine.
  split_and!; [done | set_solver | | | ].
  - intros c' [Hc' Hn]%elem_of_difference.
    destruct (decide (c' = c)) as [->|Hne]; [set_solver|].
    assert (c' ∈ mines ai ∪ safes ai); [|set_solver].
    apply Hlost. set_solver.
  - intros Hdisj. unfold Sentence.mark_mine.
    case_decide as Hc; [set_solver|]. apply Hzero. set_solver.
  - intros Hdisj. specialize (Hfull Hdisj). unfold Sentence.mark_mine.
    case_decide as Hc; cbn [Sentence.cells Sentence.count].
    + rewrite size_difference by set_solver. rewrite size_singleton.
      assert (size (Sentence.cells s') ≠ 0); [|lia].
      intros Hz%size_empty_inv. set_solver.
    + replace (Sentence.cells s' ∖ {[c]}) with (Sentence.cells s')
        by set_solver. done.
Qed.

Lemma mark_safe_tracked ai c : tracked k s ai → tracked k s (mark_safe ai c).
Proof.
  intros (s' & Hk & Hsub & Hlost & Hzero & Hfull).
  exists (Sentence.mark_safe s' c). cbn [knowledge mines safes mark_safe].
  rewrite list_lookup_fmap, Hk, cells_mark_safe.
  split_and!; [done | set_solver | | | ].
  - intros c' [Hc' Hn]%elem_of_difference.
    destruct (decide (c' = c)) as [->|Hne]; [set_solver|].
    assert (c' ∈ mines ai ∪ safes ai); [|set_solver].
    apply Hlost. set_solver.
  - intros Hdisj. rewrite <- (Hzero Hdisj).
    unfold Sentence.mark_safe. by destruct (set_remove _ _).
  - intros Hdisj.
    assert (c ∉ Sentence.cells s') as Hc by set_solver.
    unfold Sentence.mark_safe, set_remove. rewrite decide_False by done.
    replace (Sentence.cells s' ∖ {[c]}) with (Sentence.cells s')
      by set_solver.
    apply Hfull. set_solver.
Qed.

Lemma mines_foldl_mark_safe (l : list cell) ai :
  mines (foldl mark_safe ai l) = mines ai.
Proof.
  revert ai. induction l as [|c l IH]; intros ai; [done|].
  cbn [foldl]. by rewrite IH.
Qed.

Lemma safes_foldl_mark_safe (l : list cell) ai :
  safes (foldl mark_safe ai l) = list_to_set l ∪ safes ai.
Proof.
  revert ai. induction l as [|c l IH]; intros ai; cbn [foldl].
  - set_solver.
  - rewrite IH. cbn. set_solver.
Qed.

Lemma mines_foldl_mark_mine (l : list cell) ai :
  mines (foldl mark_mine ai l) = list_to_set l ∪ mines ai.
Proof.
  revert ai. induction l as [|c l IH]; intros ai; cbn [foldl].
  - set_solver.
  - rewrite IH. cbn. set_solver.
Qed.

Lemma foldl_closure_at_grows (l : list nat) ai :
  grows ai (foldl closure_at ai l).
Proof.
  apply (foldl_keeps (grows ai)); [|apply grows_refl].
  intros ai' i H. eapply grows_trans; [done|].
  apply (closure_at_keeps (grows ai')); [| |apply grows_refl].
  - intros ai'' c H'. eapply grows_trans; [done|apply mark_mine_grows].
  - intros ai'' c H'. eapply grows_trans; [done|apply mark_safe_grows].
Qed.

(** The step of the scan at index [k] itself. *)
Lemma closure_at_settles ai :
  tracked k s ai →
  let ai' := closure_at ai k in
  (Sentence.count s = 0%Z → Sentence.cells s ## mines ai' →
   Sentence.cells s ⊆ safes ai') ∧
  (Z.of_nat (size (Sentence.cells s)) = Sentence.count s →
   Sentence.cells s ## safes ai' → Sentence.cells s ⊆ mines ai').
Proof.
  intros Htr. cbv zeta.
  pose proof (closure_at_keeps (grows ai)) as Hgrow.
  specialize (Hgrow
    (λ a c H, grows_trans _ _ _ H (mark_mine_grows a c))
    (λ a c H, grows_trans _ _ _ H (mark_safe_grows a c))
    ai k (grows_refl ai)).
  revert Hgrow. unfold closure_at.
  destruct Htr as (s1 & Hk & Hsub & Hlost & Hzero & Hfull). rewrite Hk.
  set (ai1 := foldl mark_mine ai (set_iter (Sentence.known_mines s1))).
  assert (tracked k s ai1) as (s2 & Hk2 & Hsub2 & Hlost2 & Hzero2 & Hfull2).
  { apply foldl_keeps; [apply mark_mine_tracked|]. by exists s1. }
  rewrite Hk2.
  set (ai2 := foldl mark_safe ai1 (set_iter (Sentence.known_safes s2))).
  intros (Hgm & Hgn & Hgs). split.
  - intros Hcount Hdisj.
    assert (mines ai2 = mines ai1) as Hm
      by apply mines_foldl_mark_safe.
    rewrite Hm in Hdisj. specialize (Hzero2 Hdisj).
    assert (Sentence.known_safes s2 = Sentence.cells s2) as Hks.
    { unfold Sentence.known_safes. rewrite decide_True; [done|lia]. }
    assert (Sentence.cells s2 ⊆ safes ai2) as Hin.
    { unfold ai2. rewrite safes_foldl_mark_safe, Hks. unfold set_iter.
      intros c Hc. apply elem_of_union. left.
      by apply elem_of_list_to_set, elem_of_elements. }
    assert (safes ai1 ⊆ safes ai2)
      by (unfold ai2; rewrite safes_foldl_mark_safe; set_solver).
    intros c Hc. destruct (decide (c ∈ Sentence.cells s2)); [set_solver|].
    assert (c ∈ mines ai1 ∪ safes ai1) by set_solver. set_solver.
  - intros Hcount Hdisj.
    assert (Sentence.cells s ## safes ai) as Hd by set_solver.
    specialize (Hfull Hd).
    assert (Sentence.known_mines s1 = Sentence.cells s1) as Hkm.
    { unfold Sentence.known_mines. rewrite decide_True; [done|lia]. }
    assert (Sentence.cells s1 ⊆ mines ai1) as Hin.
    { unfold ai1. rewrite mines_foldl_mark_mine, Hkm. unfold set_iter.
      intros c Hc. apply elem_of_union. left.
      by apply elem_of_list_to_set, elem_of_elements. }
    assert (mines ai ⊆ mines ai1)
      by (unfold ai1; rewrite mines_foldl_mark_mine; set_solver).
    assert (mines ai1 ⊆ mines ai2)
      by (unfold ai2; by rewrite mines_foldl_mark_safe).
    intros c Hc. destruct (decide (c ∈ Sentence.cells s1)); [set_solver|].
    assert (c ∈ mines ai ∪ safes ai) by set_solver. set_solver.
Qed.

(** The whole scan. *)
Lemma closure_settles ai :
  knowledge ai !! k = Some s →
  (Sentence.count s = 0%Z → Sentence.cells s ## mines (closure ai) →
   Sentence.cells s ⊆ safes (closure ai)) ∧
  (Z.of_nat (size (Sentence.cells s)) = Sentence.count s →
   Sentence.cells s ## safes (closure ai) →
   Sentence.cells s ⊆ mines (closure ai)).
Proof.
  intros Hk. pose proof (lookup_lt_Some _ _ _ Hk) as Hlt. unfold closure.
  replace (length (knowledge ai)) with (k + S (length (knowledge ai) - S k))
    by lia.
  rewrite seq_app, foldl_app. cbn [seq foldl].
  set (ai1 := foldl closure_at ai (seq 0 k)).
  assert (tracked k s ai1) as Htr.
  { apply foldl_keeps; [|by apply tracked_start].
    intros a i. apply closure_at_keeps;
      auto using mark_mine_tracked, mark_safe_tracked. }
  destruct (closure_at_settles ai1 Htr) as [Hz Hf].
  pose proof (foldl_closure_at_grows
    (seq (S k) (length (knowledge ai) - S k)) (closure_at ai1 k))
    as (_ & Hgn & Hgs).
  replace (0 + k) with k by lia.
  split; intros Hc Hdisj; (etrans; [|done]); [apply Hz|apply Hf];
    set_solver.
Qed.

End scan.

(** ** The order of iteration over a set does not matter *)

Section iteration_order.

Implicit Types (ai : t) (s : Sentence.t) (a b : cell).

Lemma foldl_any_order {A B} (f : A → B → A) :
  (∀ x y1 y2, f (f x y1) y2 = f (f x y2) y1) →
  ∀ l1 l2, l1 ≡ₚ l2 → ∀ x, foldl f x l1 = foldl f x l2.
Proof.
  intros Hf l1 l2 Hperm.
  induction Hperm as [|y l1 l2 _ IH|y1 y2 l|l1 l2 l3 _ IH1 _ IH2];
    intros x; cbn [foldl].
  - done.
  - apply IH.
  - by rewrite Hf.
  - by rewrite IH1.
Qed.

Lemma sentence_mark_mine_comm s a b :
  Sentence.mark_mine (Sentence.mark_mine s a) b =
  Sentence.mark_mine (Sentence.mark_mine s b) a.
Proof.
  destruct (decide (a = b)) as [->|Hne]; [done|].
  unfold Sentence.mark_mine.
  repeat (case_decide; cbn [Sentence.cells Sentence.count] in * );
    try done; try (exfalso; set_solver);
    f_equal; (set_solver || lia).
Qed.

Lemma sentence_mark_safe_comm s a b :
  Sentence.mark_safe (Sentence.mark_safe s a) b =
  Sentence.mark_safe (Sentence.mark_safe s b) a.
Proof.
  destruct (decide (a = b)) as [->|Hne]; [done|].
  unfold Sentence.mark_safe, set_remove.
  repeat (case_decide; cbn [Sentence.cells Sentence.count] in * );
    try done; try (exfalso; set_solver);
    f_equal; set_solver.
Qed.

Lemma mark_mine_comm ai a b :
  mark_mine (mark_mine ai a) b = mark_mine (mark_mine ai b) a.
Proof.
  unfold mark_mine. cbn. f_equal; [set_solver|].
  rewrite <- !list_fmap_compose. apply list_fmap_ext.
  intros i s _. apply sentence_mark_mine_comm.
Qed.

Lemma mark_safe_comm ai a b :
  mark_safe (mark_safe ai a) b = mark_safe (mark_safe ai b) a.
Proof.
  unfold mark_safe. cbn. f_equal; [set_solver|].
  rewrite <- !list_fmap_compose. apply list_fmap_ext.
  intros i s _. apply sentence_mark_safe_comm.
Qed.

(** Whatever the order in which the known mines (the known safes) of a
    sentence are visited, the marking ends in the same state. *)
Lemma mark_mines_any_order ai (X : gset cell) (l : list cell) :
  l ≡ₚ set_iter X → foldl mark_mine ai l = foldl mark_mine ai (set_iter X).
Proof. intros H. by apply foldl_any_order; [apply mark_mine_comm|]. Qed.

Lemma mark_safes_any_order ai (X : gset cell) (l : list cell) :
  l ≡ₚ set_iter X → foldl mark_safe ai l = foldl mark_safe ai (set_iter X).
Proof. intros H. by apply foldl_any_order; [apply mark_safe_comm|]. Qed.

(** The first safe cell that is not a move, in any order of visit. *)
Lemma find_unmade (M : gset cell) (l : list cell) :
  match find (λ c, bool_decide (c ∉ M)) l with
  | Some c => c ∈ l ∧ c ∉ M
  | None => ∀ c, c ∈ l → c ∈ M
  end.
Proof.
  induction l as [|c l IH]; cbn [find].
  - by intros c ?%elem_of_nil.
  - case_bool_decide as Hc.
    + split; [apply elem_of_cons; by left | done].
    + destruct (find _ l) as [c'|].
      * destruct IH. split; [apply elem_of_cons; by right | done].
      * intros c' [Heq|Hc']%elem_of_cons; [|by apply IH].
        subst c'. by destruct (decide (c ∈ M)).
Qed.

End iteration_order.

(** * The properties of the specification *)

(** ** Subset inference (lines 250-267) *)

Lemma add_knowledge_held_A_B :
  add_knowledge held_A_B (4, 4)%Z 0 = Some held_A_B_D.
Proof. vm_compute. reflexivity. Qed.

Lemma prune_held_A_B :
  prune (knowledge (after_closure held_A_B (4, 4)%Z 0)) =
    Some [sentence_A; sentence_B].
Proof. vm_compute. reflexivity. Qed.

Lemma add_knowledge_held_A_B_D :
  add_knowledge held_A_B_D (4, 3)%Z 0 = Some held_B.
Proof. vm_compute. reflexivity. Qed.

Lemma derived_is_appended ai c n :
  ∃ K ai',
    prune (knowledge (after_closure ai c n)) = Some K ∧
    add_knowledge ai c n = Some ai' ∧
    knowledge ai' = K ++ infer K ∧
    ∀ a b, a ∈ K → b ∈ K → Sentence.cells b ⊂ Sentence.cells a →
           difference_sentence a b ∈ infer K.
Proof.
  destruct (add_knowledge_spec ai c n) as (K & HK & Hadd & _ & Hne & _).
  exists K. eexists. split_and!; [done | done | done |].
  intros a b Ha Hb Hsub. by apply infer_complete.
Qed.

(** A sentence with count 0 that is held when [add_knowledge] is called
    has all its cells among the safes when the call returns, unless one of
    them has become a known mine. *)
Lemma zero_sentence_marked_by_next_call ai s c n :
  s ∈ knowledge ai → Sentence.count s = 0%Z →
  ∃ ai', add_knowledge ai c n = Some ai' ∧
         (Sentence.cells s ## mines ai' → Sentence.cells s ⊆ safes ai').
Proof.
  intros [k Hk]%list_elem_of_lookup Hcount.
  destruct (add_knowledge_spec ai c n) as (K & _ & -> & _).
  eexists. split; [done|]. cbn [mines safes set_knowledge].
  assert (knowledge (before_closure ai c n) !! k =
          Some (Sentence.mark_safe s c)) as Hk'.
  { unfold before_closure. cbn [knowledge set_knowledge record_move mark_safe].
    rewrite lookup_app_l
      by (rewrite length_fmap; by eapply lookup_lt_Some).
    by rewrite list_lookup_fmap, Hk. }
  destruct (closure_settles k _ _ Hk') as [Hz _].
  assert (Sentence.count (Sentence.mark_safe s c) = 0%Z) as Hc0
    by (unfold Sentence.mark_safe; by destruct (set_remove _ _)).
  specialize (Hz Hc0). rewrite cells_mark_safe in Hz.
  intros Hdisj. unfold after_closure.
  assert (c ∈ safes (closure (before_closure ai c n))) as Hc.
  { apply (closure_grows (before_closure ai c n)). cbn. set_solver. }
  intros c' Hc'. destruct (decide (c' = c)) as [->|Hne]; [done|].
  apply Hz; set_solver.
Qed.

(** C1 fails on the code.  The derivation is as C1 says: for every two
    sentences left by the pruning of which one has a strict superset of the
    cells of the other, [add_knowledge] appends (after the sentences left by
    the pruning) the sentence of the difference of the cells and of the
    counts; with A = {(0,0),(0,1),(0,2)} = 1 and B = {(0,0),(0,1)} = 1 held
    it appends {(0,2)} = 0.  But the call returns with (0,2) not among the
    safes: nothing scans the sentences appended after the scan of lines
    221-228.  So also in a game: on a 2 x 3 grid with its one mine at (0,0),
    after (1,0) and (1,1) are revealed {(0,2),(1,2)} = 0 is held, neither
    cell is among the safes, [make_safe_move] answers [None] and
    [make_random_move] answers the mine (0,0). *)
Theorem C1_derived_sentence_is_left_unmarked :
  (∀ ai c n, ∃ K ai',
     prune (knowledge (after_closure ai c n)) = Some K ∧
     add_knowledge ai c n = Some ai' ∧
     knowledge ai' = K ++ infer K ∧
     ∀ a b, a ∈ K → b ∈ K → Sentence.cells b ⊂ Sentence.cells a →
            difference_sentence a b ∈ infer K) ∧
  prune (knowledge (after_closure held_A_B (4, 4)%Z 0)) =
    Some [sentence_A; sentence_B] ∧
  infer [sentence_A; sentence_B] = [sentence_D] ∧
  add_knowledge held_A_B (4, 4)%Z 0 = Some held_A_B_D ∧
  ((0, 2)%Z ∉ safes held_A_B_D) ∧
  run (init 2 3) [AddKnowledge (1, 0)%Z 1; AddKnowledge (1, 1)%Z 1] =
    Some corner_game ∧
  ((0, 2)%Z ∉ safes corner_game) ∧
  ((1, 2)%Z ∉ safes corner_game) ∧
  (make_safe_move corner_game).1 = None ∧
  (make_random_move corner_game).1 = Some (0, 0)%Z.
Proof.
  split_and!.
  - apply derived_is_appended.
  - apply prune_held_A_B.
  - vm_compute. reflexivity.
  - apply add_knowledge_held_A_B.
  - apply (bool_decide_unpack _). vm_compute. exact I.
  - vm_compute. reflexivity.
  - apply (bool_decide_unpack _). vm_compute. exact I.
  - apply (bool_decide_unpack _). vm_compute. exact I.
  - vm_compute. reflexivity.
  - vm_compute. reflexivity.
Qed.

(** ** The scan of lines 221-228 *)

(** C2 fails on the code: on a 1 x 5 grid, after [add_knowledge((0, 1), 1)]
    and the scan of [add_knowledge((0, 3), 0)], the sentence {(0,0)} = 1 is
    held (its count is the number of its cells) and (0,0) is not among the
    mines: the scan had passed that sentence when the marking of (0,2)
    as safe shrank it.  The call returns with the sentence still held, and
    [make_random_move] then answers (0,0).  In the same way, after the scan
    of [add_knowledge((0, 3), 1)] on [row_second] the sentence {(0,0)} = 0
    is held and (0,0) is not among the safes. *)
Theorem C2_scan_leaves_a_known_mine :
  add_knowledge (init 1 5) (0, 1)%Z 1 = Some row_first ∧
  knowledge (after_closure row_first (0, 3)%Z 0) =
    [Sentence.mk {[ (0, 0) ]}%Z 1; Sentence.mk ∅ 0] ∧
  mines (after_closure row_first (0, 3)%Z 0) = ∅ ∧
  (ai ← add_knowledge row_first (0, 3)%Z 0; Some (make_random_move ai).1) =
    Some (Some (0, 0)%Z) ∧
  run (init 1 5) [AddKnowledge (0, 4)%Z 0; AddKnowledge (0, 1)%Z 1] =
    Some row_second ∧
  knowledge (after_closure row_second (0, 3)%Z 1) =
    [Sentence.mk {[ (0, 0) ]}%Z 0; Sentence.mk ∅ 0] ∧
  safes (after_closure row_second (0, 3)%Z 1) =
    {[ (0, 1); (0, 3); (0, 4) ]}%Z.
Proof. split_and!; vm_compute; reflexivity. Qed.

(** ** The sentence built from the neighbourhood (lines 203-219) *)

Lemma length_filter_but_one {A} `{EqDecision A} (P : A → Prop)
    `{!∀ x, Decision (P x)} (c : A) (l : list A) :
  NoDup l →
  length (filter P l) =
    length (filter (λ x, x ≠ c ∧ P x) l) +
    (if decide (c ∈ l ∧ P c) then 1 else 0).
Proof.
  induction l as [|x l IH]; intros Hnd.
  { cbn. rewrite decide_False; [done|]. by intros [?%elem_of_nil _]. }
  apply NoDup_cons in Hnd as [Hx Hnd]. specialize (IH Hnd).
  rewrite !filter_cons. destruct (decide (x = c)) as [->|Hne].
  - rewrite (decide_False (P := _ ∧ _)) by (by intros [? _]).
    rewrite decide_False in IH by (by intros [? _]).
    destruct (decide (P c)) as [HP|HP]; cbn [length].
    + rewrite decide_True by (split; [apply elem_of_cons; by left|done]). lia.
    + rewrite decide_False by (by intros [_ ?]). lia.
  - assert (c ∈ x :: l ∧ P c ↔ c ∈ l ∧ P c) as Hiff.
    { rewrite elem_of_cons. naive_solver. }
    rewrite (decide_ext _ _ _ _ Hiff).
    destruct (decide (P x)) as [HP|HP].
    + rewrite decide_True by done. cbn [length]. lia.
    + rewrite decide_False by (by intros [_ ?]). done.
Qed.

Lemma chebyshev_one (c c' : cell) :
  chebyshev c c' = 1%Z ↔ (chebyshev c c' ≤ 1)%Z ∧ c' ≠ c.
Proof.
  destruct c as [x y], c' as [x' y']. unfold chebyshev. cbn [fst snd].
  split.
  - intros H. split; [lia|]. intros [= -> ->]. lia.
  - intros [H Hne]. destruct (decide (x' = x)) as [->|Hx].
    + destruct (decide (y' = y)) as [->|Hy]; [done|lia].
    + lia.
Qed.

(** The new sentence in full: also when [c] itself is a known mine of the
    grid, which takes 1 more off the count. *)
Lemma new_sentence_spec ai c n :
  let ai1 := record_move ai c in
  let s := new_sentence ai1 c n in
  knowledge (before_closure ai c n) = knowledge ai1 ++ [s] ∧
  (∀ c', c' ∈ Sentence.cells s ↔
         is_cell_valid ai c' = true ∧ chebyshev c c' = 1%Z ∧
         (c' ∉ mines ai) ∧ (c' ∉ moves_made ai)) ∧
  Sentence.count s =
    (n - Z.of_nat (known_mine_neighbours ai c)
       - (if decide (is_cell_valid ai c = true ∧ c ∈ mines ai)
          then 1 else 0))%Z.
Proof.
  cbv zeta. unfold known_mine_neighbours. split_and!.
  - done.
  - intros c'. rewrite elem_of_new_sentence, is_cell_valid_record_move.
    rewrite chebyshev_one. cbn [record_move mark_safe mines moves_made].
    rewrite not_elem_of_union, not_elem_of_singleton. tauto.
  - rewrite count_new_sentence. cbn [record_move mark_safe mines].
    rewrite (list_filter_iff _
      (λ c', is_cell_valid ai c' = true ∧ c' ∈ mines ai))
      by (intros c'; by rewrite is_cell_valid_record_move).
    rewrite (length_filter_but_one _ c (block c)) by apply NoDup_block.
    unfold neighbours. rewrite list_filter_filter.
    rewrite (list_filter_iff
      (λ c', c' ∈ mines ai ∧ c' ≠ c ∧ is_cell_valid ai c' = true)
      (λ c', c' ≠ c ∧ is_cell_valid ai c' = true ∧ c' ∈ mines ai))
      by (intros c'; tauto).
    assert (c ∈ block c) as Hc by (apply elem_of_block;
      destruct c; unfold chebyshev; cbn; lia).
    destruct (decide (is_cell_valid ai c = true ∧ c ∈ mines ai)) as [Hd|Hd].
    + rewrite decide_True by done. lia.
    + rewrite decide_False by tauto. lia.
Qed.

(** C3, as stated, fails: on a 3 x 3 grid where (1,1) itself has been
    marked a mine, [add_knowledge((1, 1), 1)] appends a sentence with count
    0, although no neighbour of (1,1) is a known mine. *)
Lemma C3_count_of_a_cell_that_is_a_known_mine :
  known_mine_neighbours (mark_mine (init 3 3) (1, 1)%Z) (1, 1)%Z = 0 ∧
  Sentence.count
    (new_sentence (record_move (mark_mine (init 3 3) (1, 1)%Z) (1, 1)%Z)
                  (1, 1)%Z 1) = 0%Z ∧
  Sentence.count
    (new_sentence (record_move (mark_mine (init 3 3) (1, 1)%Z) (1, 1)%Z)
                  (1, 1)%Z 1) ≠
    (1 - Z.of_nat
           (known_mine_neighbours (mark_mine (init 3 3) (1, 1)%Z) (1, 1)%Z))%Z.
Proof. split_and!; [vm_compute; reflexivity .. | by vm_compute]. Qed.

(** C3, amended: the sentence that [add_knowledge(cell, count)] appends
    holds exactly the coordinates of the grid at Chebyshev distance 1 from
    [cell] that are neither known mines nor moves made; when [cell] is not
    itself a known mine, its count is [count] less the number of known
    mines among the neighbours.  Revealing (0,0) with count 1, on an engine
    that knows nothing but the mine (0,1), appends {(1,0),(1,1)} = 0. *)
Theorem C3_new_sentence :
  (∀ ai c n,
     let ai1 := record_move ai c in
     let s := new_sentence ai1 c n in
     knowledge (before_closure ai c n) = knowledge ai1 ++ [s] ∧
     (∀ c', c' ∈ Sentence.cells s ↔
            is_cell_valid ai c' = true ∧ chebyshev c c' = 1%Z ∧
            (c' ∉ mines ai) ∧ (c' ∉ moves_made ai)) ∧
     (c ∉ mines ai →
      Sentence.count s = (n - Z.of_nat (known_mine_neighbours ai c))%Z)) ∧
  knowledge (before_closure (mark_mine (init 8 8) (0, 1)%Z) (0, 0)%Z 1) =
    [Sentence.mk {[ (1, 0); (1, 1) ]}%Z 0].
Proof.
  split; [|vm_compute; reflexivity].
  intros ai c n. destruct (new_sentence_spec ai c n) as (Happ & Hcells & Hcount).
  cbv zeta. split_and!; [done | done |].
  intros Hc. rewrite Hcount. rewrite decide_False by tauto.
  unfold known_mine_neighbours. lia.
Qed.

(** The example of C3 through [C3_new_sentence]: (0,0) is not a known
    mine, its neighbour (0,1) is, and the count 1 becomes 0. *)
Lemma C3_new_sentence_witness :
  ((0, 0)%Z ∉ mines (mark_mine (init 8 8) (0, 1)%Z)) ∧
  known_mine_neighbours (mark_mine (init 8 8) (0, 1)%Z) (0, 0)%Z = 1 ∧
  Sentence.count
    (new_sentence (record_move (mark_mine (init 8 8) (0, 1)%Z) (0, 0)%Z)
                  (0, 0)%Z 1) =
    (1 - Z.of_nat
           (known_mine_neighbours (mark_mine (init 8 8) (0, 1)%Z) (0, 0)%Z))%Z.
Proof.
  assert ((0, 0)%Z ∉ mines (mark_mine (init 8 8) (0, 1)%Z)) as Hc
    by (apply (bool_decide_unpack _); vm_compute; exact I).
  split_and!; [exact Hc | vm_compute; reflexivity |].
  destruct C3_new_sentence as [Hgeneral _].
  destruct (Hgeneral (mark_mine (init 8 8) (0, 1)%Z) (0, 0)%Z 1%Z)
    as (_ & _ & Hcount).
  exact (Hcount Hc).
Defined.

(** ** Pruning (lines 230-248) and what is appended after it *)

(** C4, as stated, fails: after the third call the sentence
    {(0,2),(1,2)} = 1, derived by the second call, is held twice (the third
    call has derived it again, after its pruning), and so is
    {(0,0),(0,1)} = 1. *)
Lemma C4_equal_sentences_held :
  run (init 2 7) three_calls = Some after_three_calls ∧
  knowledge after_three_calls !! 2 =
    Some (Sentence.mk {[ (0, 2); (1, 2) ]}%Z 1) ∧
  knowledge after_three_calls !! 3 =
    Some (Sentence.mk {[ (0, 2); (1, 2) ]}%Z 1).
Proof. split_and!; vm_compute; reflexivity. Qed.

(** C4, amended: when [add_knowledge] returns, no held sentence has an
    empty cell set, and the sentences that the pruning has left (all of the
    knowledge but the sentences derived after it) have cell sets that differ
    from one another; a derived sentence may equal a held one or another
    derived one. *)
Theorem C4_pruning (ai : t) (c : cell) (n : Z) :
  ∃ K ai',
    prune (knowledge (after_closure ai c n)) = Some K ∧
    add_knowledge ai c n = Some ai' ∧
    knowledge ai' = K ++ infer K ∧
    Forall (λ s, Sentence.cells s ≠ ∅) (knowledge ai') ∧
    NoDup (Sentence.cells <$> K) ∧
    NoDup K.
Proof.
  destruct (add_knowledge_spec ai c n) as (K & HK & Hadd & _ & Hne & Hnd).
  exists K. eexists. split_and!; try done.
  - cbn [knowledge set_knowledge]. apply Forall_app. split; [done|].
    apply infer_nonempty.
  - by eapply NoDup_fmap_1.
Qed.

(** ** Counts below zero *)

(** C5, as stated, fails: the second call marks (0,0) and (0,1) as mines,
    which leaves {(0,2),(1,2)} with count -1, and returns with that sentence
    held; and on [held_contradiction] a call derives and appends
    {(0,3)} = -1. *)
Lemma C5_negative_count_is_kept :
  run (init 2 4) [AddKnowledge (1, 0)%Z 2; AddKnowledge (1, 1)%Z 1] =
    Some after_two_calls ∧
  (ai ← add_knowledge held_contradiction (4, 4)%Z 0;
   Some (knowledge ai)) =
    Some [Sentence.mk {[ (0, 0); (0, 1); (0, 2); (0, 3) ]}%Z 1;
          Sentence.mk {[ (0, 0); (0, 1); (0, 2) ]}%Z 2;
          Sentence.mk {[ (0, 3) ]}%Z (-1)].
Proof. split; vm_compute; reflexivity. Qed.

(** C5, amended: [add_knowledge] detects no contradiction: it returns for
    every state, cell and count; a sentence derived from [a] and a strict
    subset [b] carries the count of [a] less the count of [b], and a sentence
    that loses a cell marked as a mine carries its count less 1, below zero
    or not. *)
Theorem C5_no_check_of_counts :
  (∀ ai c n, ∃ K ai',
     add_knowledge ai c n = Some ai' ∧
     knowledge ai' = K ++ infer K ∧
     ∀ s, s ∈ infer K →
          ∃ a b, a ∈ K ∧ b ∈ K ∧ Sentence.cells b ⊂ Sentence.cells a ∧
                 Sentence.cells s = Sentence.cells a ∖ Sentence.cells b ∧
                 Sentence.count s = (Sentence.count a - Sentence.count b)%Z) ∧
  (∀ s c, Sentence.count (Sentence.mark_mine s c) =
          if decide (c ∈ Sentence.cells s) then (Sentence.count s - 1)%Z
          else Sentence.count s).
Proof.
  split.
  - intros ai c n.
    destruct (add_knowledge_spec ai c n) as (K & _ & Hadd & _).
    exists K. eexists. split_and!; [done | done |].
    intros s (a & b & Ha & Hb & Hsub & ->)%elem_of_infer.
    exists a, b. by split_and!.
  - intros s c. unfold Sentence.mark_mine. by case_decide.
Qed.

(** ** Cells outside the grid *)

(** C6, as stated, fails: on a 3 x 3 grid [add_knowledge((-1, -1), 0)]
    returns as for any cell, with (-1,-1) among the moves made and the
    safes (and with (0,0), the one neighbour in the grid, marked safe). *)
Lemma C6_cell_outside_the_grid_is_taken :
  is_cell_valid (init 3 3) (-1, -1)%Z = false ∧
  add_knowledge (init 3 3) (-1, -1)%Z 0 =
    Some (mk 3 3 {[ (-1, -1) ]}%Z ∅ {[ (-1, -1); (0, 0) ]}%Z []).
Proof. split; vm_compute; reflexivity. Qed.

(** C6, amended: [add_knowledge] does not test its cell against the
    bounds of the grid: for a cell outside them it returns as for any other,
    with the cell added to the moves made and to the safes, and with the
    sentence of the neighbours that are in the grid appended before the
    scan. *)
Theorem C6_no_check_of_bounds (ai : t) (c : cell) (n : Z) :
  is_cell_valid ai c = false →
  ∃ ai', add_knowledge ai c n = Some ai' ∧
         c ∈ moves_made ai' ∧ c ∈ safes ai' ∧
         knowledge (before_closure ai c n) =
           knowledge (record_move ai c) ++
           [new_sentence (record_move ai c) c n].
Proof.
  intros _. destruct (add_knowledge_grows ai c n) as (ai' & Hadd & Hgrow).
  exists ai'. split; [done|].
  destruct (add_knowledge_spec ai c n) as (K & _ & Hadd' & _).
  rewrite Hadd' in Hadd. injection Hadd as <-.
  cbn [moves_made safes set_knowledge]. unfold after_closure.
  destruct (closure_grows (before_closure ai c n)) as (Hm & _ & Hs).
  split_and!; [apply Hm | apply Hs | done]; cbn; set_solver.
Qed.

Lemma C6_no_check_of_bounds_witness :
  is_cell_valid (init 3 3) (-1, -1)%Z = false ∧
  ∃ ai', add_knowledge (init 3 3) (-1, -1)%Z 0 = Some ai' ∧
         (-1, -1)%Z ∈ moves_made ai' ∧ (-1, -1)%Z ∈ safes ai'.
Proof.
  split; [reflexivity|].
  destruct (C6_no_check_of_bounds (init 3 3) (-1, -1)%Z 0 eq_refl)
    as (ai' & Hadd & Hm & Hs & _).
  by exists ai'.
Defined.

(** ** The sets of the engine only grow *)

(** C7: over any sequence of calls of [mark_mine], [mark_safe],
    [add_knowledge] and the move queries, from any state of the engine,
    every call returns, nothing leaves [safes], [mines] or [moves_made],
    and their cardinalities do not decrease. *)
Theorem C7_sets_only_grow (ops : list op) (ai : t) :
  ∃ ai', run ai ops = Some ai' ∧
         safes ai ⊆ safes ai' ∧ mines ai ⊆ mines ai' ∧
         moves_made ai ⊆ moves_made ai' ∧
         size (safes ai) ≤ size (safes ai') ∧
         size (mines ai) ≤ size (mines ai') ∧
         size (moves_made ai) ≤ size (moves_made ai').
Proof.
  destruct (run_grows ops ai) as (ai' & Hrun & Hmoves & Hmines & Hsafes).
  exists ai'. split_and!; try done; by apply subseteq_size.
Qed.

(** ** Marking twice *)

(** C8: marking a cell safe twice, or a mine twice, leaves the engine as
    marking it once does; and [mark_safe] of a sentence on a cell that the
    sentence does not hold returns the sentence as it is (the [KeyError] of
    the removal is caught). *)
Theorem C8_marking_is_idempotent (ai : t) (s : Sentence.t) (c : cell) :
  mark_safe (mark_safe ai c) c = mark_safe ai c ∧
  mark_mine (mark_mine ai c) c = mark_mine ai c ∧
  (c ∉ Sentence.cells s → Sentence.mark_safe s c = s).
Proof.
  split_and!.
  - unfold mark_safe. cbn. f_equal; [set_solver|].
    rewrite <- list_fmap_compose. apply list_fmap_ext. intros i s' _. cbn.
    unfold Sentence.mark_safe at 1. unfold set_remove.
    rewrite decide_False; [done|]. rewrite cells_mark_safe. set_solver.
  - unfold mark_mine. cbn. f_equal; [set_solver|].
    rewrite <- list_fmap_compose. apply list_fmap_ext. intros i s' _. cbn.
    unfold Sentence.mark_mine at 1.
    rewrite decide_False; [done|]. rewrite cells_mark_mine. set_solver.
  - intros Hc. unfold Sentence.mark_safe, set_remove.
    by rewrite decide_False.
Qed.

Lemma C8_marking_is_idempotent_witness :
  ((0, 2)%Z ∉ Sentence.cells sentence_B) ∧
  mark_safe (mark_safe held_A_B (0, 2)%Z) (0, 2)%Z =
    mark_safe held_A_B (0, 2)%Z ∧
  mark_mine (mark_mine held_A_B (0, 2)%Z) (0, 2)%Z =
    mark_mine held_A_B (0, 2)%Z ∧
  Sentence.mark_safe sentence_B (0, 2)%Z = sentence_B.
Proof.
  assert ((0, 2)%Z ∉ Sentence.cells sentence_B) as Hc
    by (apply (bool_decide_unpack _); vm_compute; exact I).
  destruct (C8_marking_is_idempotent held_A_B sentence_B (0, 2)%Z)
    as (Hsafe & Hmine & Hnoop).
  split_and!; [exact Hc | exact Hsafe | exact Hmine | exact (Hnoop Hc)].
Defined.

(** ** The safe move *)

(** C9: [make_safe_move] leaves the engine as it is; when some safe cell
    is not a move made it answers such a cell, and when there is none it
    answers [None]. *)
Theorem C9_safe_move (ai : t) :
  (make_safe_move ai).2 = ai ∧
  ((∃ c, c ∈ safes ai ∧ c ∉ moves_made ai) →
   ∃ c, (make_safe_move ai).1 = Some c ∧
        c ∈ safes ai ∧ c ∉ moves_made ai) ∧
  ((¬ ∃ c, c ∈ safes ai ∧ c ∉ moves_made ai) →
   (make_safe_move ai).1 = None).
Proof.
  unfold make_safe_move. cbn [fst snd].
  pose proof (find_unmade (moves_made ai) (set_iter (safes ai))) as Hfind.
  split_and!; [done | |].
  - intros (c & Hc & Hn).
    destruct (find _ _) as [c'|].
    + exists c'. destruct Hfind as [Hin Hout].
      split_and!; [done | by apply elem_of_elements | done].
    + exfalso. apply Hn, Hfind. by apply elem_of_elements.
  - intros Hnone. destruct (find _ _) as [c'|]; [|done].
    exfalso. apply Hnone. exists c'. destruct Hfind as [Hin Hout].
    split; [by apply elem_of_elements | done].
Qed.

Lemma C9_safe_move_witness :
  (∃ c, (make_safe_move held_A_B_D).1 = Some c ∧
        c ∈ safes held_A_B_D ∧ c ∉ moves_made held_A_B_D) ∧
  (make_safe_move (init 3 3)).1 = None.
Proof.
  split.
  - apply (C9_safe_move held_A_B_D). exists (3, 3)%Z.
    split; apply (bool_decide_unpack _); vm_compute; exact I.
  - apply (C9_safe_move (init 3 3)). intros (c & Hc & _).
    cbn [safes init] in Hc. by apply not_elem_of_empty in Hc.
Defined.

(** ** Known mines are in no held sentence *)

(** C10: whatever calls of [mark_mine], [mark_safe], [add_knowledge] and
    the move queries a new engine receives, every call returns and no held
    sentence has a cell that is among the mines.  For the safes this does
    not hold: after (0,0) is revealed with count 0 and (0,2) with count 1,
    the sentence {(0,1),(1,1),(1,2)} = 1 is held and (0,1) and (1,1) are
    among the safes. *)
Theorem C10_no_known_mine_in_a_sentence :
  (∀ (h w : Z) (ops : list op),
     ∃ ai, run (init h w) ops = Some ai ∧
           ∀ s c, s ∈ knowledge ai → c ∈ Sentence.cells s → c ∉ mines ai) ∧
  run (init 3 3) [AddKnowledge (0, 0)%Z 0; AddKnowledge (0, 2)%Z 1] =
    Some safes_held ∧
  (0, 1)%Z ∈ safes safes_held ∧
  (1, 1)%Z ∈ safes safes_held.
Proof.
  split_and!.
  - intros h w ops. apply run_resolved. by intros s c ?%elem_of_nil.
  - vm_compute. reflexivity.
  - apply (bool_decide_unpack _). vm_compute. exact I.
  - apply (bool_decide_unpack _). vm_compute. exact I.
Qed.

(** ** What the scan does settle *)

(** X1: a sentence that is held when the scan of lines 221-228 starts and
    whose count is the number of its cells has all its cells among the
    mines when the scan ends, unless one of them is among the safes then;
    and one whose count is 0 has all its cells among the safes, unless one
    of them is among the mines then. *)
Theorem scan_settles_held_sentences (ai : t) (k : nat) (s : Sentence.t) :
  knowledge ai !! k = Some s →
  (Z.of_nat (size (Sentence.cells s)) = Sentence.count s →
   Sentence.cells s ## safes (closure ai) →
   Sentence.cells s ⊆ mines (closure ai)) ∧
  (Sentence.count s = 0%Z →
   Sentence.cells s ## mines (closure ai) →
   Sentence.cells s ⊆ safes (closure ai)).
Proof.
  intros Hk. destruct (closure_settles k s ai Hk) as [Hzero Hfull]. by split.
Qed.

(** On a 3 x 3 grid whose middle cell is revealed with count 0, the scan
    marks the corner (0,0) safe. *)
Lemma scan_settles_held_sentences_witness :
  knowledge (before_closure (init 3 3) (1, 1)%Z 0) !! 0 =
    Some (new_sentence (record_move (init 3 3) (1, 1)%Z) (1, 1)%Z 0) ∧
  (0, 0)%Z ∈ safes (closure (before_closure (init 3 3) (1, 1)%Z 0)).
Proof.
  assert (knowledge (before_closure (init 3 3) (1, 1)%Z 0) !! 0 =
    Some (new_sentence (record_move (init 3 3) (1, 1)%Z) (1, 1)%Z 0)) as Hk
    by reflexivity.
  split; [exact Hk|].
  destruct (scan_settles_held_sentences _ _ _ Hk) as [_ Hzero].
  assert (Sentence.count
            (new_sentence (record_move (init 3 3) (1, 1)%Z) (1, 1)%Z 0) = 0%Z)
    as Hcount by (vm_compute; reflexivity).
  assert (mines (closure (before_closure (init 3 3) (1, 1)%Z 0)) = ∅)
    as Hmines by (vm_compute; reflexivity).
  specialize (Hzero Hcount). rewrite Hmines in Hzero.
  apply (proj1 (elem_of_subseteq _ _) (Hzero (disjoint_empty_r _))).
  apply (bool_decide_unpack _). vm_compute. exact I.
Defined.

(** ** A sentence with count 0 and the next call *)

(** X2: a sentence with count 0 that is held when [add_knowledge] is
    called (for any cell and count) has all its cells among the safes when
    the call returns, unless one of its cells is among the mines then. *)
Theorem zero_sentence_is_marked_by_the_next_call
    (ai : t) (s : Sentence.t) (c : cell) (n : Z) :
  s ∈ knowledge ai → Sentence.count s = 0%Z →
  ∃ ai', add_knowledge ai c n = Some ai' ∧
         (Sentence.cells s ## mines ai' → Sentence.cells s ⊆ safes ai').
Proof. apply zero_sentence_marked_by_next_call. Qed.

(** With {(0,2)} = 0 held after A and B, the call for (4,3) marks (0,2)
    safe. *)
Lemma zero_sentence_is_marked_by_the_next_call_witness :
  sentence_D ∈ knowledge held_A_B_D ∧
  Sentence.count sentence_D = 0%Z ∧
  ∃ ai', add_knowledge held_A_B_D (4, 3)%Z 0 = Some ai' ∧
         (0, 2)%Z ∈ safes ai'.
Proof.
  assert (sentence_D ∈ knowledge held_A_B_D) as Hin.
  { cbn [knowledge held_A_B_D]. apply list_elem_of_In. cbn. tauto. }
  split_and!; [exact Hin | reflexivity |].
  destruct (zero_sentence_is_marked_by_the_next_call
              held_A_B_D sentence_D (4, 3)%Z 0%Z Hin eq_refl)
    as (ai' & Hadd & Hsafe).
  exists ai'. split; [exact Hadd|].
  assert (ai' = held_B) as ->.
  { rewrite add_knowledge_held_A_B_D in Hadd. by injection Hadd. }
  assert (Sentence.cells sentence_D ## mines held_B) as Hdisj
    by (cbn [mines held_B]; apply disjoint_empty_r).
  apply (proj1 (elem_of_subseteq _ _) (Hsafe Hdisj)).
  apply (bool_decide_unpack _). vm_compute. exact I.
Defined.

(** * Further properties of the code *)

(** * Further properties of the code *)

(** ** The pruning loops as a function on lists *)

Section keep_first.

Implicit Types (K : list Sentence.t) (s : Sentence.t).

Lemma keep_first_filter K : ∀ (seen : gset (gset cell)) (X : gset cell),
  keep_first ({[ X ]} ∪ seen) K =
  keep_first seen (filter (λ s, Sentence.cells s ≠ X) K).
Proof.
  induction K as [|s r IH]; intros seen X; [done|].
  rewrite filter_cons. cbn [keep_first].
  destruct (decide (Sentence.cells s = ∅)) as [Hempty|Hfull].
  - case_decide; [cbn [keep_first]; rewrite decide_True by done|];
      apply IH.
  - destruct (decide (Sentence.cells s = X)) as [<-|Hne].
    + rewrite decide_True by set_solver.
      rewrite decide_False by (intros H; by apply H). apply IH.
    + rewrite (decide_True (P := Sentence.cells s ≠ X)) by done.
      cbn [keep_first]. rewrite (decide_False (P := Sentence.cells s = ∅))
        by done.
      destruct (decide (Sentence.cells s ∈ seen)) as [Hin|Hout].
      * rewrite decide_True by set_solver. apply IH.
      * rewrite decide_False by set_solver. f_equal.
        rewrite <- IH. f_equal. set_solver.
Qed.

Lemma prune_outer_keep_first fuel : ∀ K i,
  i ≤ length K → length K - i < fuel →
  prune_outer fuel K (length K) i =
    Some (take i K ++ keep_first ∅ (drop i K)).
Proof.
  induction fuel as [|fuel IH]; intros K i Hi Hfuel; [lia|].
  cbn [prune_outer]. case_decide as Hlt.
  - destruct (lookup_lt_is_Some_2 K i Hlt) as [si Hsi].
    rewrite Hsi. cbn [mbind option_bind].
    rewrite (drop_S K si i Hsi). cbn [keep_first].
    case_decide as Hempty.
    + rewrite list_del_lt by done. cbn [mbind option_bind].
      rewrite <- (length_delete_lt K i Hlt).
      rewrite IH by (rewrite length_delete_lt by done; lia).
      rewrite take_delete_here, drop_delete_here by done.
      rewrite decide_True; [done|].
      by apply leibniz_equiv, size_empty_inv.
    + rewrite (prune_inner_start K i si Hsi). cbn [mbind option_bind].
      set (K1 := take (S i) K ++
                 filter (λ s, Sentence.cells s ≠ Sentence.cells si)
                        (drop (S i) K)).
      assert (length (take (S i) K) = S i) as Hlen
        by (rewrite length_take; lia).
      assert (length K1 ≤ length K) as HK1.
      { unfold K1. rewrite length_app, Hlen.
        pose proof (length_filter
          (λ s, Sentence.cells s ≠ Sentence.cells si) (drop (S i) K)).
        rewrite length_drop in *. lia. }
      assert (S i ≤ length K1) as HK1'
        by (unfold K1; rewrite length_app; lia).
      replace (i + 1) with (S i) by lia.
      rewrite IH by (done || lia).
      unfold K1. rewrite take_app_length', drop_app_length' by done.
      rewrite decide_False
        by (intros Hz; apply Hempty; rewrite Hz; apply size_empty).
      rewrite decide_False by set_solver.
      rewrite (take_S_r K i si Hsi), <- app_assoc. cbn [app].
      do 3 f_equal. by rewrite <- keep_first_filter.
  - rewrite take_ge, drop_ge by lia. by rewrite app_nil_r.
Qed.

Lemma prune_keep_first K : prune K = Some (keep_first ∅ K).
Proof.
  unfold prune. rewrite prune_outer_keep_first by lia.
  by rewrite take_0, drop_0.
Qed.

(** A sentence stays exactly when its cell set is not empty, is not in
    [seen], and is the cell set of no earlier sentence. *)
Lemma elem_of_keep_first K : ∀ (seen : gset (gset cell)) s,
  s ∈ keep_first seen K ↔
  ∃ i, K !! i = Some s ∧ Sentence.cells s ≠ ∅ ∧
       (Sentence.cells s ∉ seen) ∧
       ∀ j t, j < i → K !! j = Some t → Sentence.cells t ≠ Sentence.cells s.
Proof.
  induction K as [|s0 r IH]; intros seen s; cbn [keep_first].
  { split; [by intros ?%elem_of_nil | by intros (i & ? & _)]. }
  assert (∀ i, (∀ j t, j < S i → (s0 :: r) !! j = Some t →
                       Sentence.cells t ≠ Sentence.cells s) ↔
               Sentence.cells s0 ≠ Sentence.cells s ∧
               (∀ j t, j < i → r !! j = Some t →
                       Sentence.cells t ≠ Sentence.cells s)) as Hsplit.
  { intros i. split.
    - intros H. split; [apply (H 0); [lia|done]|].
      intros j t Hj Ht. apply (H (S j)); [lia|done].
    - intros [H0 H] [|j] t Hj Ht; [by injection Ht as <-|].
      apply (H j); [lia|done]. }
  destruct (decide (Sentence.cells s0 = ∅)) as [Hempty|Hfull];
    [|destruct (decide (Sentence.cells s0 ∈ seen)) as [Hin|Hout]].
  - rewrite IH. split.
    + intros (i & Hi & Hne & Hseen & Hfirst). exists (S i).
      split_and!; try done. apply Hsplit. split; [congruence|done].
    + intros ([|i] & Hi & Hne & Hseen & Hfirst).
      * injection Hi as <-. done.
      * exists i. split_and!; try done. by apply Hsplit.
  - rewrite IH. split.
    + intros (i & Hi & Hne & Hseen & Hfirst). exists (S i).
      split_and!; try done. apply Hsplit. split; [congruence|done].
    + intros ([|i] & Hi & Hne & Hseen & Hfirst).
      * injection Hi as <-. done.
      * exists i. split_and!; try done. by apply Hsplit.
  - rewrite elem_of_cons, IH. split.
    + intros [->|(i & Hi & Hne & Hseen & Hfirst)].
      * exists 0. split_and!; try done. intros j t Hj. lia.
      * apply not_elem_of_union in Hseen as [Hne0 Hseen].
        apply not_elem_of_singleton in Hne0.
        exists (S i). split_and!; [done | done | done |].
        apply Hsplit. split; [congruence|done].
    + intros ([|i] & Hi & Hne & Hseen & Hfirst).
      * injection Hi as <-. by left.
      * right. apply Hsplit in Hfirst as [H0 Hfirst].
        exists i. split_and!; try done.
        apply not_elem_of_union. split; [|done].
        apply not_elem_of_singleton. congruence.
Qed.

(** A list without an empty cell set and without a repeated cell set is
    left as it is. *)
Lemma keep_first_clean K : ∀ (seen : gset (gset cell)),
  Forall (λ s, Sentence.cells s ≠ ∅) K →
  NoDup (Sentence.cells <$> K) →
  (∀ s, s ∈ K → Sentence.cells s ∉ seen) →
  keep_first seen K = K.
Proof.
  induction K as [|s r IH]; intros seen Hne Hnd Hseen; [done|].
  apply Forall_cons in Hne as [Hs Hr].
  rewrite fmap_cons in Hnd. apply NoDup_cons in Hnd as [Hout Hnd].
  cbn [keep_first]. rewrite decide_False by done.
  rewrite decide_False by (apply Hseen, elem_of_cons; by left).
  f_equal. apply IH; [done | done |].
  intros t Ht. apply not_elem_of_union. split.
  - intros Heq%elem_of_singleton. apply Hout. rewrite <- Heq.
    by apply list_elem_of_fmap_2.
  - apply Hseen, elem_of_cons. by right.
Qed.

Lemma prune_clean K :
  Forall (λ s, Sentence.cells s ≠ ∅) K →
  NoDup (Sentence.cells <$> K) →
  prune K = Some K.
Proof.
  intros Hne Hnd. rewrite prune_keep_first. f_equal.
  apply keep_first_clean; [done | done |].
  intros s _. apply not_elem_of_empty.
Qed.

End keep_first.

(** X3: the pruning loops of lines 230-248 raise no [IndexError] and
    return the sentences of the list in their order, those with an empty
    cell set left out, and of the sentences with one same cell set only the
    first, whatever the counts of the later ones. *)
Theorem prune_keeps_first_of_each_cell_set (K : list Sentence.t) :
  ∃ K', prune K = Some K' ∧
        K' = keep_first ∅ K ∧
        K' `sublist_of` K ∧
        ∀ s, s ∈ K' ↔
             ∃ i, K !! i = Some s ∧ Sentence.cells s ≠ ∅ ∧
                  ∀ j t, j < i → K !! j = Some t →
                         Sentence.cells t ≠ Sentence.cells s.
Proof.
  exists (keep_first ∅ K). split_and!; [apply prune_keep_first | done | |].
  - destruct (prune_spec K) as (K' & HK' & Hsub & _).
    rewrite prune_keep_first in HK'. by injection HK' as ->.
  - intros s. rewrite elem_of_keep_first. split.
    + intros (i & ? & ? & _ & ?). by exists i.
    + intros (i & ? & ? & ?). by exists i.
Qed.

(** X4: pruning a list that has no empty cell set and no repeated cell
    set returns the list as it is; so pruning what a pruning has returned
    changes nothing. *)
Theorem prune_of_a_pruned_list (K : list Sentence.t) :
  (Forall (λ s, Sentence.cells s ≠ ∅) K →
   NoDup (Sentence.cells <$> K) →
   prune K = Some K) ∧
  ∃ K', prune K = Some K' ∧ prune K' = Some K'.
Proof.
  split; [apply prune_clean|].
  destruct (prune_spec K) as (K' & HK' & _ & Hne & Hnd).
  exists K'. split; [done|]. by apply prune_clean.
Qed.

Lemma prune_of_a_pruned_list_witness :
  Forall (λ s, Sentence.cells s ≠ ∅) [sentence_A; sentence_B] ∧
  NoDup (Sentence.cells <$> [sentence_A; sentence_B]) ∧
  prune [sentence_A; sentence_B] = Some [sentence_A; sentence_B].
Proof.
  assert (Forall (λ s, Sentence.cells s ≠ ∅) [sentence_A; sentence_B]) as Hne.
  { repeat apply Forall_cons_2; [..|apply Forall_nil_2];
      apply (bool_decide_unpack _); vm_compute; exact I. }
  assert (NoDup (Sentence.cells <$> [sentence_A; sentence_B])) as Hnd.
  { apply (bool_decide_unpack _). vm_compute. exact I. }
  split_and!; [exact Hne | exact Hnd |].
  exact (proj1 (prune_of_a_pruned_list [sentence_A; sentence_B]) Hne Hnd).
Defined.

(** ** Subset inference on any list of sentences *)

Section infer_any.

Implicit Types (K : list Sentence.t) (s a b : Sentence.t).

Lemma elem_of_infer_pair_nonempty s s1 s2 :
  Sentence.cells s1 ≠ ∅ → s ∈ infer_pair s1 s2 →
  (Sentence.cells s2 ≠ ∅ ∧ Sentence.cells s2 ⊂ Sentence.cells s1 ∧
   s = difference_sentence s1 s2) ∨
  (Sentence.cells s1 ≠ ∅ ∧ Sentence.cells s1 ⊂ Sentence.cells s2 ∧
   s = difference_sentence s2 s1).
Proof.
  intros Hs1 Hs. assert (Sentence.cells s2 ≠ ∅) as Hs2.
  { intros Hempty. unfold infer_pair in Hs. cbv zeta in Hs.
    rewrite decide_True in Hs by (rewrite Hempty; apply size_empty).
    by apply elem_of_nil in Hs. }
  apply elem_of_infer_pair in Hs as [[? ?]|[? ?]]; [left|right]; done.
Qed.

Lemma elem_of_infer_iff K s :
  s ∈ infer K ↔
  ∃ a b, a ∈ K ∧ b ∈ K ∧ Sentence.cells b ≠ ∅ ∧
         Sentence.cells b ⊂ Sentence.cells a ∧
         s = difference_sentence a b.
Proof.
  induction K as [|s1 r IH]; cbn [infer].
  { split; [by intros ?%elem_of_nil|]. by intros (a & b & ?%elem_of_nil & _). }
  rewrite elem_of_app, IH. split.
  - intros [Hs|(a & b & Ha & Hb & Hne & Hsub & ->)].
    + case_decide as Hs1; [by apply elem_of_nil in Hs|].
      assert (Sentence.cells s1 ≠ ∅) as Hs1'
        by (intros Hempty; apply Hs1; rewrite Hempty; apply size_empty).
      apply list_elem_of_bind in Hs as (s2 & Hs & Hs2).
      apply (elem_of_infer_pair_nonempty _ _ _ Hs1') in Hs
        as [(? & ? & ->)|(? & ? & ->)].
      * exists s1, s2. split_and!; try done. apply elem_of_cons; by left.
      * exists s2, s1. split_and!; try done. apply elem_of_cons; by left.
    + exists a, b. split_and!; try done; apply elem_of_cons; by right.
  - intros (a & b & Ha & Hb & Hne & Hsub & ->).
    assert (Sentence.cells a ≠ ∅) as Hna.
    { intros Hempty. destruct Hsub as [_ Hsub]. apply Hsub.
      rewrite Hempty. set_solver. }
    assert (∀ t, Sentence.cells t ≠ ∅ → size (Sentence.cells t) ≠ 0) as Hsz.
    { intros t Ht Hz. by apply Ht, leibniz_equiv, size_empty_inv. }
    apply elem_of_cons in Ha as [->|Ha]; apply elem_of_cons in Hb as [->|Hb].
    + by destruct Hsub as [_ []].
    + left. rewrite decide_False by by apply Hsz.
      apply list_elem_of_bind. exists b.
      split; [|apply elem_of_cons; by right].
      rewrite infer_pair_l by done. by apply list_elem_of_singleton.
    + left. rewrite decide_False by by apply Hsz.
      apply list_elem_of_bind. exists a.
      split; [|apply elem_of_cons; by right].
      rewrite infer_pair_r by done. by apply list_elem_of_singleton.
    + right. exists a, b. by split_and!.
Qed.

End infer_any.

(** X5: from any list of sentences (empty cell sets and repeated
    sentences allowed) the loops of lines 253-265 derive exactly the
    sentences (a.cells - b.cells, a.count - b.count) for sentences [a] and
    [b] of the list where the cells of [b] are not empty and are a strict
    subset of the cells of [a]; so no derived sentence has an empty cell
    set, and nothing is derived when no held cell set strictly contains
    another non-empty one. *)
Theorem inference_derives_exactly_the_differences (K : list Sentence.t) :
  (∀ s, s ∈ infer K ↔
        ∃ a b, a ∈ K ∧ b ∈ K ∧ Sentence.cells b ≠ ∅ ∧
               Sentence.cells b ⊂ Sentence.cells a ∧
               Sentence.cells s = Sentence.cells a ∖ Sentence.cells b ∧
               Sentence.count s = (Sentence.count a - Sentence.count b)%Z) ∧
  Forall (λ s, Sentence.cells s ≠ ∅) (infer K) ∧
  (infer K = [] ↔
   ∀ a b, a ∈ K → b ∈ K → Sentence.cells b ≠ ∅ →
          ¬ Sentence.cells b ⊂ Sentence.cells a).
Proof.
  split_and!.
  - intros s. rewrite elem_of_infer_iff. split.
    + intros (a & b & ? & ? & ? & ? & ->). exists a, b. by split_and!.
    + intros (a & b & ? & ? & ? & ? & Hc & Hn). exists a, b.
      split_and!; try done. destruct s as [cs n]. cbn in Hc, Hn.
      by rewrite Hc, Hn.
  - apply infer_nonempty.
  - split.
    + intros Hnil a b Ha Hb Hne Hsub.
      assert (difference_sentence a b ∈ infer K) as Hin
        by (apply elem_of_infer_iff; exists a, b; by split_and!).
      rewrite Hnil in Hin. by apply elem_of_nil in Hin.
    + intros Hnone. destruct (infer K) as [|s l] eqn:Hinf; [done|].
      assert (s ∈ infer K) as Hs by (rewrite Hinf; apply elem_of_cons; by left).
      apply elem_of_infer_iff in Hs as (a & b & Ha & Hb & Hne & Hsub & _).
      by destruct (Hnone a b Ha Hb Hne).
Qed.

(** ** The move chosen without a proof of safety *)

Section random_move.

Lemma find_app_first {A} (P : A → bool) (l1 l2 : list A) :
  find P (l1 ++ l2) =
  match find P l1 with Some x => Some x | None => find P l2 end.
Proof.
  induction l1 as [|a l1 IH]; [done|]. cbn. by destruct (P a).
Qed.

(** The first hit of a search through nested loops: the outer loop stops
    at the first item whose inner loop has a hit. *)
Lemma find_bind {A B} (P : B → bool) (f : A → list B) (l : list A) :
  match find P (l ≫= f) with
  | Some x => ∃ l1 a l2, l = l1 ++ a :: l2 ∧ find P (f a) = Some x ∧
                         ∀ a', a' ∈ l1 → find P (f a') = None
  | None => ∀ a, a ∈ l → find P (f a) = None
  end.
Proof.
  induction l as [|a l IH].
  { cbn. by intros a ?%elem_of_nil. }
  rewrite bind_cons, find_app_first.
  destruct (find P (f a)) as [x|] eqn:Ha.
  - exists [], a, l. split_and!; [done | done |]. by intros a' ?%elem_of_nil.
  - destruct (find P (l ≫= f)) as [x|].
    + destruct IH as (l1 & a0 & l2 & -> & Hx & Hl1).
      exists (a :: l1), a0, l2. split_and!; [done | done |].
      intros a' [->|Ha']%elem_of_cons; [done | by apply Hl1].
    + intros a' [->|Ha']%elem_of_cons; [done | by apply IH].
Qed.

(** Where [range] is cut, what comes before the cut is what is smaller. *)
Lemma seqZ_cut (m n x : Z) (l1 l2 : list Z) :
  seqZ m n = l1 ++ x :: l2 →
  (m ≤ x < m + n)%Z ∧ ∀ y, y ∈ l1 ↔ (m ≤ y < x)%Z.
Proof.
  intros Hcut.
  assert (seqZ m n !! length l1 = Some x) as Hx
    by (rewrite Hcut; apply list_lookup_middle; done).
  apply lookup_seqZ in Hx as [-> Hlt]. split; [lia|].
  intros y. split.
  - intros [k Hk]%list_elem_of_lookup.
    pose proof (lookup_lt_Some _ _ _ Hk) as Hklt.
    assert (seqZ m n !! k = Some y) as Hy
      by (rewrite Hcut; by apply lookup_app_l_Some).
    apply lookup_seqZ in Hy as [-> _]. lia.
  - intros Hy. apply list_elem_of_lookup. exists (Z.to_nat (y - m)).
    assert (seqZ m n !! Z.to_nat (y - m) = Some y) as Hl
      by (apply lookup_seqZ; lia).
    rewrite Hcut, lookup_app_l in Hl by lia. done.
Qed.

Lemma make_random_move_spec (ai : t) :
  match (make_random_move ai).1 with
  | Some c =>
      (0 ≤ c.1 < height ai)%Z ∧ (0 ≤ c.2 < width ai)%Z ∧
      (c ∉ mines ai) ∧ (c ∉ moves_made ai) ∧
      ∀ c', (0 ≤ c'.1 < height ai)%Z → (0 ≤ c'.2 < width ai)%Z →
            (c'.1 < c.1 ∨ (c'.1 = c.1 ∧ c'.2 < c.2))%Z →
            c' ∈ mines ai ∨ c' ∈ moves_made ai
  | None =>
      ∀ c', (0 ≤ c'.1 < height ai)%Z → (0 ≤ c'.2 < width ai)%Z →
            c' ∈ mines ai ∨ c' ∈ moves_made ai
  end.
Proof.
  unfold make_random_move. cbn [fst].
  set (P := λ c : cell,
         bool_decide (c ∉ mines ai) && bool_decide (c ∉ moves_made ai)).
  assert (∀ c, P c = false → c ∈ mines ai ∨ c ∈ moves_made ai) as Hfalse.
  { intros c HP. destruct (decide (c ∈ mines ai)); [by left|].
    destruct (decide (c ∈ moves_made ai)); [by right|]. exfalso.
    unfold P in HP. by rewrite !bool_decide_eq_true_2 in HP by done. }
  assert (∀ c, P c = true → (c ∉ mines ai) ∧ (c ∉ moves_made ai)) as Htrue.
  { intros c [H1 H2]%andb_true_iff.
    apply bool_decide_eq_true_1 in H1. by apply bool_decide_eq_true_1 in H2. }
  assert (∀ i j, find P [(i, j)] = None → P (i, j) = false) as Hone.
  { intros i j. cbn. by destruct (P (i, j)). }
  pose proof (find_bind P (λ i, j ← seqZ 0 (width ai); [(i, j)])
                (seqZ 0 (height ai))) as Hrows.
  destruct (find P _) as [c|].
  - destruct Hrows as (is1 & i & is2 & Hcut & Hrow & Hbefore).
    apply seqZ_cut in Hcut as [Hi His1].
    pose proof (find_bind P (λ j, [(i, j)]) (seqZ 0 (width ai))) as Hcols.
    rewrite Hrow in Hcols.
    destruct Hcols as (js1 & j & js2 & Hcut & Hcell & Hleft).
    apply seqZ_cut in Hcut as [Hj Hjs1].
    assert (c = (i, j) ∧ P (i, j) = true) as [-> HP].
    { cbn in Hcell. destruct (P (i, j)); [by injection Hcell|done]. }
    destruct (Htrue _ HP). cbn [fst snd].
    split_and!; try done; try lia.
    intros [i' j'] Hi' Hj' Hlex. cbn [fst snd] in *. apply Hfalse.
    destruct Hlex as [Hlt|[-> Hlt]].
    + assert (i' ∈ is1) as Hin by (apply His1; lia).
      specialize (Hbefore i' Hin).
      pose proof (find_bind P (λ j, [(i', j)]) (seqZ 0 (width ai))) as Hc.
      rewrite Hbefore in Hc. apply Hone, Hc, elem_of_seqZ. lia.
    + apply Hone, Hleft, Hjs1. lia.
  - intros [i' j'] Hi' Hj'. cbn [fst snd] in *. apply Hfalse.
    assert (i' ∈ seqZ 0 (height ai)) as Hin by (apply elem_of_seqZ; lia).
    specialize (Hrows i' Hin).
    pose proof (find_bind P (λ j, [(i', j)]) (seqZ 0 (width ai))) as Hc.
    rewrite Hrows in Hc. apply Hone, Hc, elem_of_seqZ. lia.
Qed.

End random_move.

(** X6: [make_random_move] leaves the engine as it is and draws nothing
    at random: it answers the first cell of the grid, rows from the top and
    each row from the left, that is neither a known mine nor a move made,
    and [None] when the grid has no such cell. *)
Theorem random_move_is_the_first_free_cell (ai : t) :
  (make_random_move ai).2 = ai ∧
  match (make_random_move ai).1 with
  | Some c =>
      (0 ≤ c.1 < height ai)%Z ∧ (0 ≤ c.2 < width ai)%Z ∧
      (c ∉ mines ai) ∧ (c ∉ moves_made ai) ∧
      ∀ c', (0 ≤ c'.1 < height ai)%Z → (0 ≤ c'.2 < width ai)%Z →
            (c'.1 < c.1 ∨ (c'.1 = c.1 ∧ c'.2 < c.2))%Z →
            c' ∈ mines ai ∨ c' ∈ moves_made ai
  | None =>
      ∀ c', (0 ≤ c'.1 < height ai)%Z → (0 ≤ c'.2 < width ai)%Z →
            c' ∈ mines ai ∨ c' ∈ moves_made ai
  end.
Proof. split; [done | apply make_random_move_spec]. Qed.

(** ** What the held sentences speak of *)

Section open_cells.

Implicit Types (ai : t) (c : cell) (s : Sentence.t).

Lemma mark_mine_open ai c : open_cells ai → open_cells (mark_mine ai c).
Proof.
  intros [Hmoves Hinv]. split; [done|]. intros s c'. cbn.
  intros (s0 & -> & Hs0)%list_elem_of_fmap. rewrite cells_mark_mine.
  intros [Hc' _]%elem_of_difference.
  destruct (Hinv s0 c' Hs0 Hc'). by destruct c'.
Qed.

Lemma mark_safe_open ai c : open_cells ai → open_cells (mark_safe ai c).
Proof.
  intros [Hmoves Hinv]. split; [cbn; set_solver|]. intros s c'. cbn.
  intros (s0 & -> & Hs0)%list_elem_of_fmap. rewrite cells_mark_safe.
  intros [Hc' _]%elem_of_difference.
  destruct (Hinv s0 c' Hs0 Hc'). by destruct c'.
Qed.

Lemma before_closure_open ai c n :
  open_cells ai → open_cells (before_closure ai c n).
Proof.
  intros [Hmoves Hinv]. split; [cbn; set_solver|].
  intros s c'. unfold before_closure.
  cbn [knowledge set_knowledge moves_made].
  intros [Hs| ->%list_elem_of_singleton]%elem_of_app.
  - cbn in Hs. apply list_elem_of_fmap in Hs as (s0 & -> & Hs0).
    rewrite cells_mark_safe. intros [Hc' Hne]%elem_of_difference.
    destruct (Hinv s0 c' Hs0 Hc'). split; [by destruct c'|].
    cbn. set_solver.
  - intros (_ & Hv & _ & Hm)%elem_of_new_sentence. split; [|done].
    by destruct c'.
Qed.

Lemma add_knowledge_open ai c n :
  open_cells ai → ∃ ai', add_knowledge ai c n = Some ai' ∧ open_cells ai'.
Proof.
  intros Hinv. destruct (add_knowledge_spec ai c n) as (K & _ & -> & Hsub & _).
  eexists. split; [done|].
  assert (open_cells (after_closure ai c n)) as [Hmoves Hclo].
  { unfold after_closure. apply (closure_keeps open_cells);
      auto using mark_mine_open, mark_safe_open, before_closure_open. }
  split; [done|].
  assert (∀ s c', s ∈ K → c' ∈ Sentence.cells s →
            is_cell_valid (after_closure ai c n) c' = true ∧
            c' ∉ moves_made (after_closure ai c n)) as HK.
  { intros s c' Hs. apply Hclo. by eapply elem_of_sublist. }
  assert (∀ s c', s ∈ K ++ infer K → c' ∈ Sentence.cells s →
            is_cell_valid (after_closure ai c n) c' = true ∧
            c' ∉ moves_made (after_closure ai c n)) as HK'.
  { intros s c' [Hs|Hs]%elem_of_app; [by apply HK|].
    apply elem_of_infer in Hs as (a & b & Ha & _ & _ & ->). cbn.
    intros [Hc' _]%elem_of_difference. by apply (HK a). }
  intros s c' Hs Hc'. cbn [knowledge set_knowledge moves_made] in *.
  destruct (HK' s c' Hs Hc'). split; [by destruct c'|done].
Qed.

Lemma exec_open ai o :
  open_cells ai → ∃ ai', exec ai o = Some ai' ∧ open_cells ai'.
Proof.
  intros Hinv. destruct o as [c|c|c n| |]; cbn.
  - eexists. split; [done|]. by apply mark_mine_open.
  - eexists. split; [done|]. by apply mark_safe_open.
  - by apply add_knowledge_open.
  - by eexists.
  - by eexists.
Qed.

Lemma run_open ops : ∀ ai,
  open_cells ai → ∃ ai', run ai ops = Some ai' ∧ open_cells ai'.
Proof.
  induction ops as [|o ops IH]; intros ai Hinv; cbn [run].
  - by exists ai.
  - destruct (exec_open ai o Hinv) as (ai1 & -> & H1). cbn. by apply IH.
Qed.

End open_cells.

(** X7: whatever calls of [mark_mine], [mark_safe], [add_knowledge] and the
    move queries a new engine receives, every move made is among the safes,
    and every cell of every held sentence is a cell of the grid that is not
    a move made: the sentences speak of cells not yet revealed only. *)
Theorem sentences_speak_of_open_cells (h w : Z) (ops : list op) :
  ∃ ai, run (init h w) ops = Some ai ∧
        moves_made ai ⊆ safes ai ∧
        ∀ s c, s ∈ knowledge ai → c ∈ Sentence.cells s →
               is_cell_valid ai c = true ∧ c ∉ moves_made ai.
Proof.
  apply run_open. split; [done|]. by intros s c ?%elem_of_nil.
Qed.

(** ** An engine fed with the counts of a board *)

Section consistent.

Variable M : gset cell.

Implicit Types (ai : t) (c : cell) (s : Sentence.t).

Lemma size_inter_split (X Y : gset cell) :
  size X = size (X ∩ Y) + size (X ∖ Y).
Proof.
  rewrite <- size_union by set_solver. f_equal. apply set_eq. intros c.
  destruct (decide (c ∈ Y)); set_solver.
Qed.

Lemma truthful_mark_safe s c :
  c ∉ M → truthful M s → truthful M (Sentence.mark_safe s c).
Proof.
  unfold truthful. intros Hc Hs.
  assert (Sentence.count (Sentence.mark_safe s c) = Sentence.count s) as ->
    by (unfold Sentence.mark_safe; by destruct (set_remove _ _)).
  rewrite cells_mark_safe, Hs. do 2 f_equal. set_solver.
Qed.

Lemma truthful_mark_mine s c :
  c ∈ M → truthful M s → truthful M (Sentence.mark_mine s c).
Proof.
  unfold truthful, Sentence.mark_mine. intros Hc Hs.
  case_decide as Hin; [|done]. cbn [Sentence.cells Sentence.count].
  rewrite Hs.
  assert (Sentence.cells s ∩ M =
          {[ c ]} ∪ (Sentence.cells s ∖ {[ c ]}) ∩ M) as ->.
  { apply set_eq. intros c'. destruct (decide (c' = c)); set_solver. }
  rewrite size_union by set_solver. rewrite size_singleton. lia.
Qed.

Lemma mark_mine_consistent ai c :
  c ∈ M → consistent M ai → consistent M (mark_mine ai c).
Proof.
  intros Hc (Hm & Hs & Hmv & Hk). split_and!; cbn; [set_solver|done|done|].
  intros s (s0 & -> & Hs0)%list_elem_of_fmap.
  by apply truthful_mark_mine, Hk.
Qed.

Lemma mark_safe_consistent ai c :
  c ∉ M → consistent M ai → consistent M (mark_safe ai c).
Proof.
  intros Hc (Hm & Hs & Hmv & Hk).
  split_and!; cbn; [done|set_solver|set_solver|].
  intros s (s0 & -> & Hs0)%list_elem_of_fmap.
  by apply truthful_mark_safe, Hk.
Qed.

Lemma foldl_mark_mine_consistent (l : list cell) : ∀ ai,
  (∀ c, c ∈ l → c ∈ M) → consistent M ai →
  consistent M (foldl mark_mine ai l).
Proof.
  induction l as [|c l IH]; intros ai Hl Hai; [done|]. cbn [foldl].
  apply IH; [intros c' Hc'; apply Hl, elem_of_cons; by right|].
  apply mark_mine_consistent; [apply Hl, elem_of_cons; by left | done].
Qed.

Lemma foldl_mark_safe_consistent (l : list cell) : ∀ ai,
  (∀ c, c ∈ l → c ∉ M) → consistent M ai →
  consistent M (foldl mark_safe ai l).
Proof.
  induction l as [|c l IH]; intros ai Hl Hai; [done|]. cbn [foldl].
  apply IH; [intros c' Hc'; apply Hl, elem_of_cons; by right|].
  apply mark_safe_consistent; [apply Hl, elem_of_cons; by left | done].
Qed.

(** The known mines of a true sentence are mines, its known safes are
    not. *)
Lemma known_mines_truthful s c :
  truthful M s → c ∈ Sentence.known_mines s → c ∈ M.
Proof.
  unfold truthful, Sentence.known_mines. intros Hs.
  case_decide as Hfull; [|by intros ?%not_elem_of_empty].
  intros Hc. pose proof (size_inter_split (Sentence.cells s) M) as Hsplit.
  assert (size (Sentence.cells s ∖ M) = 0) as Hz%size_empty_inv by lia.
  destruct (decide (c ∈ M)); [done|]. set_solver.
Qed.

Lemma known_safes_truthful s c :
  truthful M s → c ∈ Sentence.known_safes s → c ∉ M.
Proof.
  unfold truthful, Sentence.known_safes. intros Hs.
  case_decide as Hzero; [|by intros ?%not_elem_of_empty].
  intros Hc. assert (size (Sentence.cells s ∩ M) = 0) as Hz%size_empty_inv
    by lia.
  set_solver.
Qed.

Lemma closure_at_consistent ai k :
  consistent M ai → consistent M (closure_at ai k).
Proof.
  intros Hai. unfold closure_at.
  destruct (knowledge ai !! k) as [s|] eqn:Hk; [|done]. cbv zeta.
  set (ai1 := foldl mark_mine ai (set_iter (Sentence.known_mines s))).
  assert (consistent M ai1) as Hai1.
  { apply foldl_mark_mine_consistent; [|done].
    intros c Hc%elem_of_elements. apply (known_mines_truthful s); [|done].
    destruct Hai as (_ & _ & _ & Htrue). apply Htrue.
    by eapply list_elem_of_lookup_2. }
  destruct (knowledge ai1 !! k) as [s'|] eqn:Hk'; [|done].
  apply foldl_mark_safe_consistent; [|done].
  intros c Hc%elem_of_elements. apply (known_safes_truthful s'); [|done].
  destruct Hai1 as (_ & _ & _ & Htrue). apply Htrue.
  by eapply list_elem_of_lookup_2.
Qed.

Lemma closure_consistent ai : consistent M ai → consistent M (closure ai).
Proof.
  intros Hai. unfold closure. apply foldl_keeps; [|done].
  intros a k. apply closure_at_consistent.
Qed.

Lemma length_filter_split {A} (P Q : A → Prop)
    `{!∀ x, Decision (P x), !∀ x, Decision (Q x)} (l : list A) :
  length (filter P l) =
    length (filter (λ x, P x ∧ Q x) l) + length (filter (λ x, P x ∧ ¬ Q x) l).
Proof.
  induction l as [|x l IH]; [done|]. rewrite !filter_cons.
  destruct (decide (P x)) as [HP|HP], (decide (Q x)) as [HQ|HQ].
  - rewrite decide_True, decide_False by tauto. cbn [length]. lia.
  - rewrite decide_False, decide_True by tauto. cbn [length]. lia.
  - rewrite !decide_False by tauto. done.
  - rewrite !decide_False by tauto. done.
Qed.

Lemma size_list_to_set_inter (l : list cell) :
  NoDup l →
  size ((list_to_set l : gset cell) ∩ M) = length (filter (λ c, c ∈ M) l).
Proof.
  intros Hnd.
  assert ((list_to_set l : gset cell) ∩ M =
          list_to_set (filter (λ c, c ∈ M) l)) as ->.
  { apply set_eq. intros c.
    rewrite elem_of_intersection, !elem_of_list_to_set, list_elem_of_filter.
    tauto. }
  apply size_list_to_set. by apply NoDup_filter.
Qed.

(** The sentence built for a cell that is not a mine, from the count of
    the board, is true. *)
Lemma new_sentence_truthful ai c :
  consistent M ai → c ∉ M →
  truthful M (new_sentence (record_move ai c) c (nearby M ai c)).
Proof.
  intros (Hm & Hs & Hmv & _) Hc. unfold truthful.
  rewrite count_new_sentence, new_sentence_block, foldl_visit_cell.
  cbn [Sentence.cells fst]. rewrite union_empty_r_L.
  rewrite size_list_to_set_inter by (apply NoDup_filter, NoDup_block).
  rewrite list_filter_filter. unfold nearby, neighbours.
  rewrite list_filter_filter.
  cbn [record_move mark_safe mines moves_made].
  rewrite (list_filter_iff
    (λ c', c' ∈ M ∧ c' ≠ c ∧ is_cell_valid ai c' = true)
    (λ c', is_cell_valid ai c' = true ∧ c' ∈ M)).
  2:{ intros c'. split; [tauto|]. intros [? ?]. split_and!; try done.
      by intros ->. }
  rewrite (list_filter_iff
    (λ c', is_cell_valid (record_move ai c) c' = true ∧ c' ∈ mines ai)
    (λ c', (is_cell_valid ai c' = true ∧ c' ∈ M) ∧ c' ∈ mines ai)).
  2:{ intros c'. rewrite is_cell_valid_record_move. set_solver. }
  rewrite (list_filter_iff
    (λ c', c' ∈ M ∧ is_cell_valid (record_move ai c) c' = true ∧
           (c' ∉ mines ai) ∧ (c' ∉ {[c]} ∪ moves_made ai))
    (λ c', (is_cell_valid ai c' = true ∧ c' ∈ M) ∧ ¬ c' ∈ mines ai)).
  2:{ intros c'. rewrite is_cell_valid_record_move. split; [tauto|].
      intros [[? ?] ?]. split_and!; try done.
      apply not_elem_of_union. split; [|set_solver].
      intros ->%elem_of_singleton. done. }
  rewrite (length_filter_split
    (λ c', is_cell_valid ai c' = true ∧ c' ∈ M) (λ c', c' ∈ mines ai)).
  lia.
Qed.

Lemma difference_truthful a b :
  Sentence.cells b ⊆ Sentence.cells a →
  truthful M a → truthful M b → truthful M (difference_sentence a b).
Proof.
  unfold truthful. intros Hsub Ha Hb. cbn. rewrite Ha, Hb.
  assert (Sentence.cells a ∩ M =
          Sentence.cells b ∩ M ∪ (Sentence.cells a ∖ Sentence.cells b) ∩ M)
    as ->.
  { apply set_eq. intros c.
    destruct (decide (c ∈ Sentence.cells b)); set_solver. }
  rewrite size_union by set_solver. lia.
Qed.

Lemma before_closure_consistent ai c :
  consistent M ai → c ∉ M →
  consistent M (before_closure ai c (nearby M ai c)).
Proof.
  intros Hai Hc. pose proof (new_sentence_truthful ai c Hai Hc) as Hnew.
  destruct Hai as (Hm & Hs & Hmv & Hk). unfold before_closure.
  split_and!; cbn; [done | set_solver | set_solver |].
  intros s [Hin| ->%list_elem_of_singleton]%elem_of_app; [|done].
  apply list_elem_of_fmap in Hin as (s0 & -> & Hs0).
  by apply truthful_mark_safe, Hk.
Qed.

Lemma add_knowledge_consistent ai c :
  consistent M ai → c ∉ M →
  ∃ ai', add_knowledge ai c (nearby M ai c) = Some ai' ∧ consistent M ai'.
Proof.
  intros Hai Hc.
  destruct (add_knowledge_spec ai c (nearby M ai c))
    as (K & _ & -> & Hsub & _).
  eexists. split; [done|].
  assert (consistent M (after_closure ai c (nearby M ai c)))
    as (Hm & Hs & Hmv & Hk)
    by (by apply closure_consistent, before_closure_consistent).
  split_and!; [done | done | done |].
  assert (∀ s, s ∈ K → truthful M s) as HK
    by (intros s Hin; apply Hk; by eapply elem_of_sublist).
  intros s. cbn [knowledge set_knowledge].
  intros [Hin|Hin]%elem_of_app; [by apply HK|].
  apply elem_of_infer in Hin as (a & b & Ha & Hb & [Hab _] & ->).
  apply difference_truthful; auto.
Qed.

End consistent.

Section consistent_calls.

Variable M : gset cell.

Implicit Types (ai : t) (c : cell) (s : Sentence.t).

Lemma truthful_bounds s :
  truthful M s →
  (0 ≤ Sentence.count s ≤ Z.of_nat (size (Sentence.cells s)))%Z.
Proof.
  unfold truthful. intros ->.
  pose proof (subseteq_size (Sentence.cells s ∩ M) (Sentence.cells s)
                ltac:(set_solver)).
  lia.
Qed.

Lemma add_knowledge_dims ai c n ai' :
  add_knowledge ai c n = Some ai' →
  height ai' = height ai ∧ width ai' = width ai.
Proof.
  destruct (add_knowledge_spec ai c n) as (K & _ & -> & _).
  intros [= <-]. cbn [height width set_knowledge]. unfold after_closure.
  apply (closure_keeps
    (λ a, height a = height ai ∧ width a = width ai)); done.
Qed.

Lemma neighbours_dims ai ai' c :
  height ai' = height ai → width ai' = width ai →
  neighbours ai' c = neighbours ai c.
Proof.
  intros Hh Hw. unfold neighbours. apply list_filter_iff. intros [x y].
  unfold is_cell_valid. by rewrite Hh, Hw.
Qed.

(** A run of reveals, each with the count of the board. *)
Lemma run_consistent (h w : Z) (cs : list cell) : ∀ ai,
  height ai = h → width ai = w →
  consistent M ai → (∀ c, c ∈ cs → c ∉ M) →
  ∃ ai', run ai ((λ c, AddKnowledge c (nearby M (init h w) c)) <$> cs)
           = Some ai' ∧ consistent M ai'.
Proof.
  induction cs as [|c cs IH]; intros ai Hh Hw Hai Hcs; cbn [fmap list_fmap run].
  { by exists ai. }
  assert (nearby M (init h w) c = nearby M ai c) as ->.
  { unfold nearby. by rewrite (neighbours_dims (init h w) ai c). }
  destruct (add_knowledge_consistent M ai c Hai) as (ai1 & Hadd & Hai1);
    [apply Hcs, elem_of_cons; by left|].
  cbn [exec]. rewrite Hadd. cbn [mbind option_bind].
  destruct (add_knowledge_dims _ _ _ _ Hadd) as [Hh1 Hw1].
  apply IH; [congruence | congruence | done |].
  intros c' Hc'. apply Hcs, elem_of_cons. by right.
Qed.

Lemma elem_of_neighbours ai c c' :
  c' ∈ neighbours ai c ↔
  (chebyshev c c' ≤ 1)%Z ∧ c' ≠ c ∧ is_cell_valid ai c' = true.
Proof.
  unfold neighbours. rewrite list_elem_of_filter, elem_of_block. tauto.
Qed.

Lemma nearby_zero ai c c' :
  nearby M ai c = 0%Z → c' ∈ neighbours ai c → c' ∉ M.
Proof.
  unfold nearby. intros Hz Hc' HM.
  assert (c' ∈ filter (λ c', c' ∈ M) (neighbours ai c)) as Hin
    by (by apply list_elem_of_filter).
  destruct (filter _ _); [by apply elem_of_nil in Hin | cbn in Hz; lia].
Qed.

(** The new sentence is at the end of the knowledge when the scan
    starts. *)
Lemma lookup_new_sentence ai c n :
  knowledge (before_closure ai c n) !! length (knowledge ai) =
    Some (new_sentence (record_move ai c) c n).
Proof.
  unfold before_closure. cbn [knowledge set_knowledge record_move mark_safe].
  rewrite lookup_app_r by (by rewrite length_fmap).
  rewrite length_fmap. by replace (_ - _) with 0 by lia.
Qed.

Lemma zero_count_marks_neighbours_safe ai c :
  consistent M ai → c ∉ M → nearby M ai c = 0%Z →
  ∃ ai', add_knowledge ai c 0 = Some ai' ∧
         ∀ c', c' ∈ neighbours ai c → c' ∈ safes ai'.
Proof.
  intros Hai Hc Hzero.
  pose proof (before_closure_consistent M ai c Hai Hc) as Hbefore.
  pose proof (closure_consistent M _ Hbefore) as (Hm & Hs & _ & _).
  rewrite Hzero in *.
  destruct (add_knowledge_spec ai c 0) as (K & _ & -> & _).
  eexists. split; [done|]. cbn [safes set_knowledge]. unfold after_closure.
  intros c' Hc'. pose proof (nearby_zero ai c c' Hzero Hc') as HcM.
  apply elem_of_neighbours in Hc' as (Hcheb & Hne & Hvalid).
  destruct Hai as (Hmines & Hsafes & Hmoves & Htrue).
  destruct (decide (c' ∈ moves_made ai)) as [Hmv|Hmv].
  { apply (closure_grows (before_closure ai c 0)). cbn. set_solver. }
  set (s := new_sentence (record_move ai c) c 0).
  assert (c' ∈ Sentence.cells s) as Hin.
  { apply elem_of_new_sentence. rewrite is_cell_valid_record_move.
    split_and!; [done | done | cbn; set_solver | cbn; set_solver]. }
  assert (∀ c'', c'' ∈ Sentence.cells s → c'' ∉ M) as Hcells.
  { intros c'' (Hch & Hv & _ & Hmv'')%elem_of_new_sentence.
    rewrite is_cell_valid_record_move in Hv.
    apply (nearby_zero ai c c'' Hzero), elem_of_neighbours.
    split_and!; [done | | done]. intros ->. cbn in Hmv''. set_solver. }
  destruct (closure_settles _ _ _ (lookup_new_sentence ai c 0)) as [Hz _].
  apply Hz; [|set_solver|done].
  destruct Hbefore as (_ & _ & _ & Htrue').
  assert (truthful M s) as Hts
    by (apply Htrue'; eapply list_elem_of_lookup_2, lookup_new_sentence).
  unfold truthful in Hts. change (Sentence.count s = 0%Z). rewrite Hts.
  assert (Sentence.cells s ∩ M = ∅) as -> by set_solver.
  by rewrite size_empty.
Qed.

Lemma all_mines_marks_neighbours ai c :
  consistent M ai → c ∉ M →
  (∀ c', c' ∈ neighbours ai c → c' ∉ moves_made ai → c' ∈ M) →
  ∃ ai', add_knowledge ai c (nearby M ai c) = Some ai' ∧
         ∀ c', c' ∈ neighbours ai c → c' ∉ moves_made ai → c' ∈ mines ai'.
Proof.
  intros Hai Hc Hall.
  pose proof (before_closure_consistent M ai c Hai Hc) as Hbefore.
  pose proof (closure_consistent M _ Hbefore) as (Hm & Hs & _ & _).
  destruct (add_knowledge_spec ai c (nearby M ai c)) as (K & _ & -> & _).
  eexists. split; [done|]. cbn [mines set_knowledge]. unfold after_closure.
  intros c' Hc' Hmv. pose proof (Hall c' Hc' Hmv) as HcM.
  apply elem_of_neighbours in Hc' as (Hcheb & Hne & Hvalid).
  destruct (decide (c' ∈ mines ai)) as [Hmine|Hmine].
  { apply (closure_grows (before_closure ai c (nearby M ai c))). by cbn. }
  set (s := new_sentence (record_move ai c) c (nearby M ai c)).
  assert (c' ∈ Sentence.cells s) as Hin.
  { apply elem_of_new_sentence. rewrite is_cell_valid_record_move.
    split_and!; [done | done | done | cbn; set_solver]. }
  assert (Sentence.cells s ⊆ M) as Hcells.
  { intros c'' (Hch & Hv & _ & Hmv'')%elem_of_new_sentence.
    rewrite is_cell_valid_record_move in Hv. cbn in Hmv''.
    apply Hall; [|set_solver]. apply elem_of_neighbours.
    split_and!; [done | | done]. intros ->. set_solver. }
  destruct (closure_settles _ _ _
              (lookup_new_sentence ai c (nearby M ai c))) as [_ Hf].
  apply Hf; [|set_solver|done].
  destruct Hbefore as (_ & _ & _ & Htrue').
  assert (truthful M s) as Hts
    by (apply Htrue'; eapply list_elem_of_lookup_2, lookup_new_sentence).
  unfold truthful in Hts.
  change (Z.of_nat (size (Sentence.cells s)) = Sentence.count s).
  rewrite Hts. do 2 f_equal. set_solver.
Qed.

End consistent_calls.

Lemma init_consistent (M : gset cell) (h w : Z) : consistent M (init h w).
Proof.
  split_and!; cbn; [apply empty_subseteq | apply disjoint_empty_l | done |].
  by intros s ?%elem_of_nil.
Qed.

(** X8: when what the engine knows is true of the mines of a board (its
    known mines are mines, its safes are not, its moves are among its safes,
    the count of each held sentence is the number of mines among its cells),
    [add_knowledge] of a cell that is not a mine, with the number of mines
    among its neighbours as count, returns and leaves all of this true; each
    held sentence then has a count between 0 and the number of its cells. *)
Theorem truthful_reveal_keeps_knowledge_true
    (M : gset cell) (ai : t) (c : cell) :
  consistent M ai → c ∉ M →
  ∃ ai', add_knowledge ai c (nearby M ai c) = Some ai' ∧
         mines ai' ⊆ M ∧ safes ai' ## M ∧ moves_made ai' ⊆ safes ai' ∧
         ∀ s, s ∈ knowledge ai' →
              Sentence.count s = Z.of_nat (size (Sentence.cells s ∩ M)) ∧
              (0 ≤ Sentence.count s ≤ Z.of_nat (size (Sentence.cells s)))%Z.
Proof.
  intros Hai Hc.
  destruct (add_knowledge_consistent M ai c Hai Hc)
    as (ai' & Hadd & Hm & Hs & Hmv & Htrue).
  exists ai'. split_and!; try done.
  intros s Hin. split; [by apply Htrue | by apply (truthful_bounds M), Htrue].
Qed.

Lemma truthful_reveal_keeps_knowledge_true_witness :
  consistent one_mine (init 3 3) ∧ ((0, 2)%Z ∉ one_mine) ∧
  nearby one_mine (init 3 3) (0, 2)%Z = 1%Z ∧
  ∃ ai', add_knowledge (init 3 3) (0, 2)%Z 1 = Some ai' ∧
         mines ai' ⊆ one_mine ∧ safes ai' ## one_mine.
Proof.
  assert (consistent one_mine (init 3 3)) as Hai.
  { split_and!; cbn; [apply empty_subseteq | apply disjoint_empty_l | done |].
    by intros s ?%elem_of_nil. }
  assert ((0, 2)%Z ∉ one_mine) as Hc
    by (apply (bool_decide_unpack _); vm_compute; exact I).
  assert (nearby one_mine (init 3 3) (0, 2)%Z = 1%Z) as Hn
    by (vm_compute; reflexivity).
  split_and!; [exact Hai | exact Hc | exact Hn |].
  destruct (truthful_reveal_keeps_knowledge_true one_mine (init 3 3)
              (0, 2)%Z Hai Hc) as (ai' & Hadd & Hm & Hs & _).
  rewrite Hn in Hadd. by exists ai'.
Defined.

(** X9: on a new engine, after any number of calls of [add_knowledge],
    each for a cell that is not a mine and with the number of mines among its
    neighbours as count, every known mine is a mine, no safe is a mine, every
    held sentence has a count between 0 and the number of its cells, and the
    cell that [make_safe_move] answers is not a mine. *)
Theorem truthful_game_never_errs
    (M : gset cell) (h w : Z) (cs : list cell) :
  (∀ c, c ∈ cs → c ∉ M) →
  ∃ ai, run (init h w)
            ((λ c, AddKnowledge c (nearby M (init h w) c)) <$> cs) = Some ai ∧
        mines ai ⊆ M ∧ safes ai ## M ∧
        (∀ s, s ∈ knowledge ai →
              (0 ≤ Sentence.count s ≤ Z.of_nat (size (Sentence.cells s)))%Z) ∧
        ∀ c, (make_safe_move ai).1 = Some c → c ∉ M.
Proof.
  intros Hcs.
  destruct (run_consistent M h w cs (init h w) eq_refl eq_refl
              (init_consistent M h w) Hcs) as (ai & Hrun & Hm & Hs & Hmv & Htrue).
  exists ai. split_and!; try done.
  - intros s Hin. by apply (truthful_bounds M), Htrue.
  - intros c Hmove. unfold make_safe_move in Hmove. cbn [fst] in Hmove.
    pose proof (find_unmade (moves_made ai) (set_iter (safes ai))) as Hfind.
    rewrite Hmove in Hfind. destruct Hfind as [Hin%elem_of_elements _].
    set_solver.
Qed.

Lemma truthful_game_never_errs_witness :
  (∀ c, c ∈ [(0, 0)%Z; (0, 2)%Z] → c ∉ one_mine) ∧
  ∃ ai, run (init 3 3)
            ((λ c, AddKnowledge c (nearby one_mine (init 3 3) c))
               <$> [(0, 0)%Z; (0, 2)%Z]) = Some ai ∧
        mines ai ⊆ one_mine ∧ safes ai ## one_mine.
Proof.
  assert (∀ c, c ∈ [(0, 0)%Z; (0, 2)%Z] → c ∉ one_mine) as Hcs.
  { intros c [->|[->|?%elem_of_nil]%elem_of_cons]%elem_of_cons; [| |done];
      apply (bool_decide_unpack _); vm_compute; exact I. }
  split; [exact Hcs|].
  destruct (truthful_game_never_errs one_mine 3 3 _ Hcs)
    as (ai & Hrun & Hm & Hs & _).
  exists ai. exact (conj Hrun (conj Hm Hs)).
Defined.

(** X10: when what the engine knows is true of the mines of a board and a
    cell that is not a mine has no mine among its neighbours,
    [add_knowledge] of the cell with count 0 returns with every neighbour of
    the cell among the safes. *)
Theorem zero_count_makes_the_neighbours_safe
    (M : gset cell) (ai : t) (c : cell) :
  consistent M ai → c ∉ M → nearby M ai c = 0%Z →
  ∃ ai', add_knowledge ai c 0 = Some ai' ∧
         ∀ c', c' ∈ neighbours ai c → c' ∈ safes ai'.
Proof. apply zero_count_marks_neighbours_safe. Qed.

Lemma zero_count_makes_the_neighbours_safe_witness :
  consistent one_mine (init 3 3) ∧ ((0, 0)%Z ∉ one_mine) ∧
  nearby one_mine (init 3 3) (0, 0)%Z = 0%Z ∧
  (1, 1)%Z ∈ neighbours (init 3 3) (0, 0)%Z ∧
  ∃ ai', add_knowledge (init 3 3) (0, 0)%Z 0 = Some ai' ∧
         (1, 1)%Z ∈ safes ai'.
Proof.
  assert (consistent one_mine (init 3 3)) as Hai.
  { split_and!; cbn; [apply empty_subseteq | apply disjoint_empty_l | done |].
    by intros s ?%elem_of_nil. }
  assert ((0, 0)%Z ∉ one_mine) as Hc
    by (apply (bool_decide_unpack _); vm_compute; exact I).
  assert (nearby one_mine (init 3 3) (0, 0)%Z = 0%Z) as Hn
    by (vm_compute; reflexivity).
  assert ((1, 1)%Z ∈ neighbours (init 3 3) (0, 0)%Z) as Hin
    by (apply (bool_decide_unpack _); vm_compute; exact I).
  split_and!; [exact Hai | exact Hc | exact Hn | exact Hin |].
  destruct (zero_count_makes_the_neighbours_safe one_mine (init 3 3)
              (0, 0)%Z Hai Hc Hn) as (ai' & Hadd & Hsafe).
  exists ai'. split; [exact Hadd | exact (Hsafe _ Hin)].
Defined.

(** X11: when what the engine knows is true of the mines of a board and
    every neighbour of a cell that is not a move made is a mine,
    [add_knowledge] of the cell (not a mine) with the count of the board
    returns with every such neighbour among the known mines.  A neighbour
    that is a known safe but not a move made counts as unknown here. *)
Theorem full_count_makes_the_neighbours_mines
    (M : gset cell) (ai : t) (c : cell) :
  consistent M ai → c ∉ M →
  (∀ c', c' ∈ neighbours ai c → c' ∉ moves_made ai → c' ∈ M) →
  ∃ ai', add_knowledge ai c (nearby M ai c) = Some ai' ∧
         ∀ c', c' ∈ neighbours ai c → c' ∉ moves_made ai → c' ∈ mines ai'.
Proof. apply all_mines_marks_neighbours. Qed.

Lemma full_count_makes_the_neighbours_mines_witness :
  consistent edge_mine (init 1 2) ∧ ((0, 0)%Z ∉ edge_mine) ∧
  (∀ c', c' ∈ neighbours (init 1 2) (0, 0)%Z →
         c' ∉ moves_made (init 1 2) → c' ∈ edge_mine) ∧
  nearby edge_mine (init 1 2) (0, 0)%Z = 1%Z ∧
  ∃ ai', add_knowledge (init 1 2) (0, 0)%Z 1 = Some ai' ∧
         (0, 1)%Z ∈ mines ai'.
Proof.
  assert (consistent edge_mine (init 1 2)) as Hai.
  { split_and!; cbn; [apply empty_subseteq | apply disjoint_empty_l | done |].
    by intros s ?%elem_of_nil. }
  assert ((0, 0)%Z ∉ edge_mine) as Hc
    by (apply (bool_decide_unpack _); vm_compute; exact I).
  assert (neighbours (init 1 2) (0, 0)%Z = [(0, 1)%Z]) as Hnb
    by (vm_compute; reflexivity).
  assert (∀ c', c' ∈ neighbours (init 1 2) (0, 0)%Z →
                c' ∉ moves_made (init 1 2) → c' ∈ edge_mine) as Hall.
  { rewrite Hnb. intros c' ->%list_elem_of_singleton _.
    apply (bool_decide_unpack _). vm_compute. exact I. }
  assert (nearby edge_mine (init 1 2) (0, 0)%Z = 1%Z) as Hn
    by (vm_compute; reflexivity).
  split_and!; [exact Hai | exact Hc | exact Hall | exact Hn |].
  destruct (full_count_makes_the_neighbours_mines edge_mine (init 1 2)
              (0, 0)%Z Hai Hc Hall) as (ai' & Hadd & Hmines).
  rewrite Hn in Hadd. exists ai'. split; [exact Hadd|].
  apply Hmines; [rewrite Hnb; by apply list_elem_of_singleton|].
  cbn. apply not_elem_of_empty.
Defined.

(** ** Marking all the cells of a set *)

Section mark_all.

Implicit Types (ai : t) (c : cell) (s : Sentence.t) (l : list cell).

(** A sentence after the cells of [L] have been marked as mines. *)
Lemma foldl_sentence_mark_mine l : ∀ s,
  foldl Sentence.mark_mine s l =
    Sentence.mk (Sentence.cells s ∖ list_to_set l)
      (Sentence.count s -
       Z.of_nat (size (Sentence.cells s ∩ list_to_set l)))%Z.
Proof.
  induction l as [|c l IH]; intros s; cbn [foldl].
  { rewrite list_to_set_nil. destruct s as [X n]. cbn. f_equal; [set_solver|].
    replace (X ∩ ∅) with (∅ : gset cell) by set_solver.
    rewrite size_empty. lia. }
  rewrite list_to_set_cons, IH, cells_mark_mine. f_equal; [set_solver|].
  unfold Sentence.mark_mine. case_decide as Hc; cbn [Sentence.cells Sentence.count].
  - assert (Sentence.cells s ∩ ({[c]} ∪ list_to_set l) =
            {[c]} ∪ (Sentence.cells s ∖ {[c]}) ∩ list_to_set l) as ->.
    { apply set_eq. intros c'. destruct (decide (c' = c)); set_solver. }
    rewrite (size_union (C := gset cell) {[ c ]}) by set_solver.
    rewrite size_singleton. lia.
  - do 3 f_equal. set_solver.
Qed.

Lemma foldl_sentence_mark_safe l : ∀ s,
  foldl Sentence.mark_safe s l =
    Sentence.mk (Sentence.cells s ∖ list_to_set l) (Sentence.count s).
Proof.
  induction l as [|c l IH]; intros s; cbn [foldl].
  { rewrite list_to_set_nil. destruct s as [X n]. cbn. f_equal. set_solver. }
  rewrite list_to_set_cons, IH, cells_mark_safe. f_equal; [set_solver|].
  unfold Sentence.mark_safe. by destruct (set_remove _ _).
Qed.

Lemma foldl_mark_mine_knowledge l : ∀ ai,
  knowledge (foldl mark_mine ai l) =
    (λ s, foldl Sentence.mark_mine s l) <$> knowledge ai.
Proof.
  induction l as [|c l IH]; intros ai; cbn [foldl].
  { by rewrite list_fmap_id. }
  rewrite IH. cbn [knowledge mark_mine]. by rewrite <- list_fmap_compose.
Qed.

Lemma foldl_mark_safe_knowledge l : ∀ ai,
  knowledge (foldl mark_safe ai l) =
    (λ s, foldl Sentence.mark_safe s l) <$> knowledge ai.
Proof.
  induction l as [|c l IH]; intros ai; cbn [foldl].
  { by rewrite list_fmap_id. }
  rewrite IH. cbn [knowledge mark_safe]. by rewrite <- list_fmap_compose.
Qed.

Lemma foldl_mark_safe_frame l : ∀ ai,
  height (foldl mark_safe ai l) = height ai ∧
  width (foldl mark_safe ai l) = width ai ∧
  moves_made (foldl mark_safe ai l) = moves_made ai ∧
  mines (foldl mark_safe ai l) = mines ai ∧
  safes (foldl mark_safe ai l) = list_to_set l ∪ safes ai.
Proof.
  induction l as [|c l IH]; intros ai; cbn [foldl].
  { rewrite list_to_set_nil. split_and!; try done. set_solver. }
  rewrite list_to_set_cons.
  destruct (IH (mark_safe ai c)) as (-> & -> & -> & -> & ->).
  split_and!; try done. cbn. set_solver.
Qed.

Lemma foldl_mark_mine_frame l : ∀ ai,
  height (foldl mark_mine ai l) = height ai ∧
  width (foldl mark_mine ai l) = width ai ∧
  moves_made (foldl mark_mine ai l) = moves_made ai ∧
  mines (foldl mark_mine ai l) = list_to_set l ∪ mines ai ∧
  safes (foldl mark_mine ai l) = safes ai.
Proof.
  induction l as [|c l IH]; intros ai; cbn [foldl].
  { rewrite list_to_set_nil. split_and!; try done. set_solver. }
  rewrite list_to_set_cons.
  destruct (IH (mark_mine ai c)) as (-> & -> & -> & -> & ->).
  split_and!; try done. cbn. set_solver.
Qed.

End mark_all.

(** X12: marking the cells of a list as mines, one call of [mark_mine]
    after the other, adds the cells of the list to the mines and takes them
    out of every held sentence, whose count goes down by the number of its
    cells that are in the list; marking them safe adds them to the safes and
    takes them out of every held sentence, whose count stays.  The outcome
    depends on the set of the cells only, not on their order nor on
    repetitions. *)
Theorem marking_a_list_of_cells (ai : t) (l : list cell) :
  foldl mark_mine ai l =
    mk (height ai) (width ai) (moves_made ai)
       (list_to_set l ∪ mines ai) (safes ai)
       ((λ s, Sentence.mk (Sentence.cells s ∖ list_to_set l)
                (Sentence.count s -
                 Z.of_nat (size (Sentence.cells s ∩ list_to_set l)))%Z)
          <$> knowledge ai) ∧
  foldl mark_safe ai l =
    mk (height ai) (width ai) (moves_made ai)
       (mines ai) (list_to_set l ∪ safes ai)
       ((λ s, Sentence.mk (Sentence.cells s ∖ list_to_set l)
                (Sentence.count s))
          <$> knowledge ai).
Proof.
  split.
  - destruct (foldl_mark_mine_frame l ai) as (Hh & Hw & Hmv & Hm & Hs).
    pose proof (foldl_mark_mine_knowledge l ai) as Hk.
    destruct (foldl mark_mine ai l) as [h w mv ms sf K]. cbn in *. subst.
    f_equal. apply list_fmap_ext. intros i s _.
    apply foldl_sentence_mark_mine.
  - destruct (foldl_mark_safe_frame l ai) as (Hh & Hw & Hmv & Hm & Hs).
    pose proof (foldl_mark_safe_knowledge l ai) as Hk.
    destruct (foldl mark_safe ai l) as [h w mv ms sf K]. cbn in *. subst.
    f_equal. apply list_fmap_ext. intros i s _.
    apply foldl_sentence_mark_safe.
Qed.

(** ** The board *)

Section board.

Implicit Types (bd : list (list bool)) (ms : gset cell) (c : cell).

Lemma py_range_nat (n : Z) :
  py_range 0 n = Z.of_nat <$> seq 0 (Z.to_nat n).
Proof.
  unfold py_range, seqZ. rewrite Z.sub_0_r. apply list_fmap_ext.
  intros i k _. lia.
Qed.

Lemma foldl_append_const {A B} (x : A) (l : list B) (acc : list A) :
  foldl (λ row _, row ++ [x]) acc l = acc ++ replicate (length l) x.
Proof.
  revert acc. induction l as [|b l IH]; intros acc; cbn.
  - by rewrite app_nil_r.
  - rewrite IH, <- app_assoc. done.
Qed.

Lemma empty_board_replicate (h w : Z) :
  Minesweeper.empty_board h w =
    replicate (Z.to_nat h) (replicate (Z.to_nat w) false).
Proof.
  unfold Minesweeper.empty_board.
  rewrite !foldl_append_const, !py_range_nat, !length_fmap, !length_seq.
  done.
Qed.

Lemma board_of_empty (h w : Z) :
  board_of h w ∅ (Minesweeper.empty_board h w).
Proof.
  rewrite empty_board_replicate. split_and!.
  - apply length_replicate.
  - intros i row [-> _]%lookup_replicate. apply length_replicate.
  - by intros c ?%not_elem_of_empty.
  - intros i j row v [-> _]%lookup_replicate [-> _]%lookup_replicate.
    split; [done | by intros ?%not_elem_of_empty].
Qed.

Lemma py_get_in_range {A} (l : list A) (i : Z) :
  (0 ≤ i)%Z → py_get l i = l !! Z.to_nat i.
Proof. intros Hi. unfold py_get. by rewrite decide_True. Qed.

(** Reading a cell of the grid. *)
Lemma board_read h w ms bd (i j : Z) :
  board_of h w ms bd → in_grid h w (i, j) →
  ∃ row, bd !! Z.to_nat i = Some row ∧ length row = Z.to_nat w ∧
         py_get bd i = Some row ∧
         row !! Z.to_nat j = Some (bool_decide ((i, j) ∈ ms)) ∧
         py_get row j = Some (bool_decide ((i, j) ∈ ms)).
Proof.
  intros (Hlen & Hrows & _ & Hcells) [Hi Hj]. cbn [fst snd] in Hi, Hj.
  destruct (lookup_lt_is_Some_2 bd (Z.to_nat i)) as [row Hrow]; [lia|].
  pose proof (Hrows _ _ Hrow) as Hw.
  destruct (lookup_lt_is_Some_2 row (Z.to_nat j)) as [v Hv]; [lia|].
  pose proof (Hcells _ _ _ _ Hrow Hv) as Hiff.
  rewrite !Z2Nat.id in Hiff by lia.
  assert (v = bool_decide ((i, j) ∈ ms)) as <-.
  { destruct v; symmetry.
    - apply bool_decide_eq_true_2. by apply Hiff.
    - apply bool_decide_eq_false_2. intros Hin. by apply Hiff in Hin. }
  exists row. rewrite !py_get_in_range by lia. done.
Qed.

(** Writing [True] at a cell of the grid. *)
Lemma board_write h w ms bd (i j : Z) row :
  board_of h w ms bd → in_grid h w (i, j) →
  bd !! Z.to_nat i = Some row →
  ∃ row' bd', py_set row j true = Some row' ∧ py_set bd i row' = Some bd' ∧
              board_of h w ({[ (i, j) ]} ∪ ms) bd'.
Proof.
  intros (Hlen & Hrows & Hgrid & Hcells) [Hi Hj] Hrow.
  cbn [fst snd] in Hi, Hj. pose proof (Hrows _ _ Hrow) as Hw.
  exists (<[Z.to_nat j := true]> row),
         (<[Z.to_nat i := <[Z.to_nat j := true]> row]> bd).
  split_and!.
  - unfold py_set. rewrite decide_True by lia. done.
  - unfold py_set. rewrite decide_True by lia. done.
  - split_and!.
    + by rewrite length_insert.
    + intros i' r [(<- & <- & _)|[_ Hr]]%list_lookup_insert_Some.
      * by rewrite length_insert.
      * by eapply Hrows.
    + intros c [->%elem_of_singleton|Hc]%elem_of_union; [done|by apply Hgrid].
    + intros i' j' r v Hr Hv. rewrite elem_of_union, elem_of_singleton.
      apply list_lookup_insert_Some in Hr as [(<- & <- & _)|[Hne Hr]].
      * apply list_lookup_insert_Some in Hv as [(<- & <- & _)|[Hne Hv]].
        -- rewrite !Z2Nat.id by lia. tauto.
        -- rewrite (Hcells _ _ _ _ Hrow Hv). split; [tauto|].
           intros [[= Hii Hjj]|?]; [lia|done].
      * rewrite (Hcells _ _ _ _ Hr Hv). split; [tauto|].
        intros [[= Hii Hjj]|?]; [lia|done].
Qed.

(** The loop that adds mines: what it returns, when it returns. *)
Lemma place_board h w n (draws : list cell) : ∀ ms bd ms' bd',
  board_of h w ms bd → Forall (in_grid h w) draws →
  Minesweeper.place h w draws n ms bd = Some (ms', bd') →
  board_of h w ms' bd' ∧ Z.of_nat (size ms') = n ∧ ms ⊆ ms'.
Proof.
  induction draws as [|[i j] draws IH]; intros ms bd ms' bd' Hbd Hdraws;
    cbn [Minesweeper.place].
  { case_decide; [done|]. intros [= <- <-]. split_and!; [done|lia|done]. }
  apply Forall_cons in Hdraws as [Hij Hdraws].
  case_decide as Hn; [|intros [= <- <-]; split_and!; [done|lia|done]].
  case_decide as Hdim; [done|].
  destruct (board_read h w ms bd i j Hbd Hij)
    as (row & Hrow & _ & -> & _ & Hv).
  cbn [mbind option_bind]. rewrite Hv. cbn [mbind option_bind].
  case_bool_decide as Hin; cbn [negb].
  - by apply IH.
  - destruct (board_write h w ms bd i j row Hbd Hij Hrow)
      as (row' & bd1 & Hrow' & Hbd1' & Hbd1).
    rewrite Hrow'. cbn [mbind option_bind].
    rewrite Hbd1'. cbn [mbind option_bind]. intros Hplace.
    destruct (IH _ _ _ _ Hbd1 Hdraws Hplace) as (? & ? & ?).
    split_and!; [done | done | set_solver].
Qed.

(** It returns when the draws hold enough cells. *)
Lemma place_returns h w n (draws : list cell) : ∀ ms bd,
  board_of h w ms bd → Forall (in_grid h w) draws →
  (Z.of_nat (size ms) ≤ n ≤ Z.of_nat (size (ms ∪ list_to_set draws)))%Z →
  is_Some (Minesweeper.place h w draws n ms bd).
Proof.
  induction draws as [|[i j] draws IH]; intros ms bd Hbd Hdraws Hn;
    cbn [Minesweeper.place].
  { rewrite list_to_set_nil, union_empty_r_L in Hn.
    rewrite decide_False by lia. done. }
  apply Forall_cons in Hdraws as [Hij Hdraws].
  case_decide as Hne; [|done].
  rewrite decide_False by (destruct Hij; cbn in *; lia).
  destruct (board_read h w ms bd i j Hbd Hij)
    as (row & Hrow & _ & -> & _ & Hv).
  cbn [mbind option_bind]. rewrite Hv. cbn [mbind option_bind].
  rewrite list_to_set_cons in Hn.
  case_bool_decide as Hin; cbn [negb].
  - apply IH; [done | done |].
    replace (ms ∪ list_to_set draws)
      with (ms ∪ ({[(i, j)]} ∪ list_to_set draws)) by set_solver.
    done.
  - destruct (board_write h w ms bd i j row Hbd Hij Hrow)
      as (row' & bd1 & Hrow' & Hbd1' & Hbd1).
    rewrite Hrow'. cbn [mbind option_bind].
    rewrite Hbd1'. cbn [mbind option_bind]. apply IH; [done | done |].
    replace ({[(i, j)]} ∪ ms ∪ list_to_set draws)
      with (ms ∪ ({[(i, j)]} ∪ list_to_set draws)) by set_solver.
    rewrite (size_union (C := gset cell) {[ (i, j) ]}) by set_solver.
    rewrite size_singleton. lia.
Qed.

(** It does not return when the number of mines asked for is negative. *)
Lemma place_negative h w n (draws : list cell) : ∀ ms bd,
  (n < 0)%Z → Minesweeper.place h w draws n ms bd = None.
Proof.
  induction draws as [|[i j] draws IH]; intros ms bd Hn;
    cbn [Minesweeper.place]; rewrite decide_True by lia; [done|].
  case_decide; [done|].
  destruct (py_get bd i) as [row|]; [|done]. cbn [mbind option_bind].
  destruct (py_get row j) as [v|]; [|done]. cbn [mbind option_bind].
  destruct v; cbn [negb]; [by apply IH|].
  destruct (py_set row j true) as [row'|]; [|done]. cbn [mbind option_bind].
  destruct (py_set bd i row') as [bd'|]; [|done]. cbn [mbind option_bind].
  by apply IH.
Qed.

(** Every mine that the loop adds is a cell drawn. *)
Lemma place_drawn h w n (draws : list cell) : ∀ ms bd ms' bd',
  Minesweeper.place h w draws n ms bd = Some (ms', bd') →
  ms' ⊆ ms ∪ list_to_set draws.
Proof.
  induction draws as [|[i j] draws IH]; intros ms bd ms' bd';
    cbn [Minesweeper.place].
  { case_decide; [done|]. intros [= <- <-]. set_solver. }
  case_decide; [|intros [= <- <-]; set_solver].
  case_decide; [done|].
  destruct (py_get bd i) as [row|]; [|done]. cbn [mbind option_bind].
  destruct (py_get row j) as [v|]; [|done]. cbn [mbind option_bind].
  rewrite list_to_set_cons.
  destruct v; cbn [negb].
  - intros Hplace%IH. set_solver.
  - destruct (py_set row j true) as [row'|]; [|done].
    cbn [mbind option_bind].
    destruct (py_set bd i row') as [bd1|]; [|done].
    cbn [mbind option_bind]. intros Hplace%IH. set_solver.
Qed.

End board.

Section board_answers.

Implicit Types (b : Minesweeper.t) (ai : t) (c : cell).

Lemma is_cell_valid_in_grid ai c :
  is_cell_valid ai c = true ↔ in_grid (height ai) (width ai) c.
Proof.
  destruct c as [x y]. unfold is_cell_valid, in_grid. cbn [fst snd].
  destruct (Z.ltb_spec x 0), (Z.leb_spec (height ai) x),
    (Z.ltb_spec y 0), (Z.leb_spec (width ai) y); cbn; split; try done; lia.
Qed.

Lemma py_range_three (a : Z) :
  py_range (a - 1) (a + 2) = [a + -1; a + 0; a + 1]%Z.
Proof.
  unfold py_range. replace (a + 2 - (a - 1))%Z with 3%Z by lia.
  unfold seqZ. change (Z.to_nat 3) with 3%nat. cbn [seq fmap list_fmap].
  replace (a + -1)%Z with (Z.of_nat 0 + (a - 1))%Z by lia.
  replace (a + 0)%Z with (Z.of_nat 1 + (a - 1))%Z by lia.
  replace (a + 1)%Z with (Z.of_nat 2 + (a - 1))%Z by lia.
  reflexivity.
Qed.

(** One pass of the body of the loops of [nearby_mines]. *)
Lemma nearby_visit_spec b ai c (count i j : Z) :
  board_ok b →
  height ai = Minesweeper.height b → width ai = Minesweeper.width b →
  Minesweeper.nearby_visit b c count i j =
    Some (count +
          Z.of_nat (length (filter (λ c', c' ∈ Minesweeper.mines b)
                      (filter (λ c', c' ≠ c ∧ is_cell_valid ai c' = true)
                              [(i, j)]))))%Z.
Proof.
  intros Hb Hh Hw. unfold Minesweeper.nearby_visit.
  rewrite (filter_cons _ (i, j)), filter_nil.
  case_decide as Heq.
  { rewrite decide_False by tauto. rewrite filter_nil. cbn. f_equal. lia. }
  case_decide as Hgrid.
  - assert (is_cell_valid ai (i, j) = true) as Hvalid.
    { apply is_cell_valid_in_grid. by rewrite Hh, Hw. }
    rewrite decide_True by done.
    destruct (board_read _ _ _ _ i j Hb Hgrid) as (row & _ & _ & -> & _ & Hv).
    cbn [mbind option_bind]. rewrite Hv. cbn [mbind option_bind].
    rewrite (filter_cons _ (i, j)), filter_nil.
    case_bool_decide as Hin.
    + rewrite decide_True by done. done.
    + rewrite decide_False by done. cbn. f_equal. lia.
  - rewrite decide_False.
    + rewrite filter_nil. cbn. f_equal. lia.
    + intros [_ Hvalid]. apply is_cell_valid_in_grid in Hvalid.
      rewrite Hh, Hw in Hvalid. done.
Qed.

Lemma nearby_mines_spec b ai c :
  board_ok b →
  height ai = Minesweeper.height b → width ai = Minesweeper.width b →
  Minesweeper.nearby_mines b c = Some (nearby (Minesweeper.mines b) ai c).
Proof.
  intros Hb Hh Hw. destruct c as [x y].
  unfold Minesweeper.nearby_mines, nearby, neighbours. cbn [fst snd].
  rewrite !py_range_three. cbn [foldl mbind option_bind].
  change (block (x, y)) with
    ([(x + -1, y + -1)] ++ [(x + -1, y + 0)] ++ [(x + -1, y + 1)] ++
     [(x + 0, y + -1)] ++ [(x + 0, y + 0)] ++ [(x + 0, y + 1)] ++
     [(x + 1, y + -1)] ++ [(x + 1, y + 0)] ++ [(x + 1, y + 1)])%Z.
  rewrite !filter_app, !length_app.
  repeat (rewrite (nearby_visit_spec b ai) by done; cbn [mbind option_bind]).
  f_equal. lia.
Qed.

Lemma is_mine_in_grid b c :
  board_ok b → in_grid (Minesweeper.height b) (Minesweeper.width b) c →
  Minesweeper.is_mine b c = Some (bool_decide (c ∈ Minesweeper.mines b)).
Proof.
  intros Hb Hc. destruct c as [i j]. unfold Minesweeper.is_mine.
  destruct (board_read _ _ _ _ i j Hb Hc) as (row & _ & _ & -> & _ & Hv).
  done.
Qed.

Lemma py_get_wraps {A} (l : list A) (i : Z) :
  (- Z.of_nat (length l) ≤ i < 0)%Z →
  py_get l i = py_get l (Z.of_nat (length l) + i).
Proof.
  intros Hi. unfold py_get.
  rewrite decide_False, decide_True, decide_True by lia. done.
Qed.

Lemma py_get_outside {A} (l : list A) (i : Z) :
  (i < - Z.of_nat (length l) ∨ Z.of_nat (length l) ≤ i)%Z →
  py_get l i = None.
Proof.
  intros Hi. unfold py_get. case_decide.
  - apply lookup_ge_None_2. lia.
  - rewrite decide_False by lia. done.
Qed.

Lemma size_list_to_set_le (l : list cell) :
  size (list_to_set (C := gset cell) l) ≤ length l.
Proof.
  induction l as [|c l IH]; [by rewrite list_to_set_nil, size_empty|].
  rewrite list_to_set_cons, size_union_alt, size_singleton. cbn [length].
  pose proof (subseteq_size (C := gset cell)
                (list_to_set l ∖ {[c]}) (list_to_set l)) as Hle.
  specialize (Hle ltac:(set_solver)). lia.
Qed.

Lemma length_grid (h w : Z) :
  length (grid h w) = Z.to_nat h * Z.to_nat w.
Proof.
  unfold grid. rewrite <- (length_seqZ 0 h).
  induction (seqZ 0 h) as [|i l IH]; [done|].
  rewrite bind_cons, length_app, length_fmap, length_seqZ, IH.
  cbn [length]. lia.
Qed.

Lemma elem_of_grid (h w : Z) c : c ∈ grid h w ↔ in_grid h w c.
Proof.
  unfold grid, in_grid. rewrite list_elem_of_bind. split.
  - intros (i & Hc & Hi). apply list_elem_of_fmap in Hc as (j & -> & Hj).
    apply elem_of_seqZ in Hi, Hj. cbn. lia.
  - intros [Hi Hj]. exists c.1. split.
    + apply list_elem_of_fmap. exists c.2. split; [by destruct c|].
      apply elem_of_seqZ. lia.
    + apply elem_of_seqZ. lia.
Qed.

Lemma size_in_grid (h w : Z) (ms : gset cell) :
  (∀ c, c ∈ ms → in_grid h w c) →
  (Z.of_nat (size ms) ≤ Z.max 0 h * Z.max 0 w)%Z.
Proof.
  intros Hms.
  assert (ms ⊆ list_to_set (grid h w)) as Hsub.
  { intros c Hc. apply elem_of_list_to_set, elem_of_grid. by apply Hms. }
  apply subseteq_size in Hsub.
  pose proof (size_list_to_set_le (grid h w)) as Hle.
  rewrite length_grid in Hle.
  assert (Z.of_nat (size ms) ≤ Z.of_nat (Z.to_nat h * Z.to_nat w))%Z
    as Hz by lia.
  rewrite Nat2Z.inj_mul in Hz.
  replace (Z.max 0 h) with (Z.of_nat (Z.to_nat h)) by lia.
  replace (Z.max 0 w) with (Z.of_nat (Z.to_nat w)) by lia.
  done.
Qed.

Lemma play_consistent b (cs : list cell) : ∀ ai,
  board_ok b →
  height ai = Minesweeper.height b → width ai = Minesweeper.width b →
  consistent (Minesweeper.mines b) ai →
  (∀ c, c ∈ cs → c ∉ Minesweeper.mines b) →
  ∃ ai', play b ai cs = Some ai' ∧ consistent (Minesweeper.mines b) ai' ∧
         height ai' = Minesweeper.height b ∧ width ai' = Minesweeper.width b.
Proof.
  unfold play.
  induction cs as [|c cs IH]; intros ai Hb Hh Hw Hai Hcs; cbn [foldl].
  { by exists ai. }
  cbn [mbind option_bind]. rewrite (nearby_mines_spec b ai c) by done.
  cbn [mbind option_bind].
  destruct (add_knowledge_consistent _ ai c Hai) as (ai1 & Hadd & Hai1);
    [apply Hcs, elem_of_cons; by left|].
  rewrite Hadd.
  destruct (add_knowledge_dims _ _ _ _ Hadd) as [Hh1 Hw1].
  apply IH; [done | congruence | congruence | done |].
  intros c' Hc'. apply Hcs, elem_of_cons. by right.
Qed.

Lemma init_board (h w n : Z) (draws : list cell) b :
  Forall (in_grid h w) draws →
  Minesweeper.init h w n draws = Some b →
  board_ok b ∧ Minesweeper.height b = h ∧ Minesweeper.width b = w ∧
  Z.of_nat (size (Minesweeper.mines b)) = n ∧
  Minesweeper.mines_found b = ∅.
Proof.
  intros Hdraws. unfold Minesweeper.init.
  destruct (Minesweeper.place h w draws n ∅ (Minesweeper.empty_board h w))
    as [[ms bd]|] eqn:Hplace; [|done].
  cbn. intros [= <-].
  destruct (place_board _ _ _ _ _ _ _ _ (board_of_empty h w) Hdraws Hplace)
    as (Hbd & Hsize & _).
  done.
Qed.

Lemma length_filter_mono {A} (P Q : A → Prop)
    `{!∀ x, Decision (P x)} `{!∀ x, Decision (Q x)} (l : list A) :
  (∀ x, P x → Q x) → length (filter P l) ≤ length (filter Q l).
Proof.
  intros HPQ. induction l as [|x l IH]; [done|].
  rewrite !filter_cons.
  destruct (decide (P x)) as [HP|HP].
  - rewrite decide_True by auto. cbn [length]. lia.
  - destruct (decide (Q x)); cbn [length]; lia.
Qed.

(** At most eight cells of the block around [c] are not [c]. *)
Lemma length_neighbours_le (P : cell → Prop) `{!∀ x, Decision (P x)} c :
  length (filter (λ c', c' ≠ c ∧ P c') (block c)) ≤ 8.
Proof.
  pose proof (length_filter_mono (λ c', c' ≠ c ∧ P c')
                (λ c', c' ≠ c ∧ True) (block c)) as Hmono.
  specialize (Hmono ltac:(by intros c' [? _])).
  pose proof (length_filter_but_one (λ _, True) c (block c) (NoDup_block c))
    as Hone.
  rewrite decide_True in Hone.
  2:{ split; [|done]. apply elem_of_block.
      destruct c; unfold chebyshev; cbn; lia. }
  pose proof (length_filter (λ _ : cell, True) (block c)) as Hle.
  assert (length (block c) = 9) as Hnine by (by destruct c).
  lia.
Qed.

Lemma make_safe_move_safe ai c :
  (make_safe_move ai).1 = Some c → c ∈ safes ai.
Proof.
  intros Hmove. unfold make_safe_move in Hmove. cbn [fst] in Hmove.
  pose proof (find_unmade (moves_made ai) (set_iter (safes ai))) as Hfind.
  rewrite Hmove in Hfind. by destruct Hfind as [Hin%elem_of_elements _].
Qed.

End board_answers.

(** ** The board: what its methods answer *)

Lemma sample_draws_in_grid : Forall (in_grid 2 3) sample_draws.
Proof. repeat constructor; cbn; lia. Qed.

Lemma sample_draws_size :
  size (list_to_set (C := gset cell) sample_draws) = 2.
Proof. vm_compute. reflexivity. Qed.

Lemma sample_board_init :
  Minesweeper.init 2 3 2 sample_draws = Some sample_board.
Proof. vm_compute. reflexivity. Qed.

(** X13: [Minesweeper.__init__], when [random.randrange] returns cells of
    the grid of which at least [mines] are distinct ([mines] not negative),
    returns a board of the height and width given, whose set of mines has
    exactly [mines] cells, each of them a cell drawn, whose [mines_found] is
    empty, and whose field has [height] rows of [width] columns. *)
Theorem new_board_holds_the_mines_asked_for
    (h w n : Z) (draws : list cell) :
  Forall (in_grid h w) draws →
  (0 ≤ n ≤ Z.of_nat (size (list_to_set (C := gset cell) draws)))%Z →
  ∃ b, Minesweeper.init h w n draws = Some b ∧
       Minesweeper.height b = h ∧ Minesweeper.width b = w ∧
       Z.of_nat (size (Minesweeper.mines b)) = n ∧
       Minesweeper.mines b ⊆ list_to_set draws ∧
       (∀ c, c ∈ Minesweeper.mines b → in_grid h w c) ∧
       Minesweeper.mines_found b = ∅ ∧
       length (Minesweeper.board b) = Z.to_nat h ∧
       ∀ row, row ∈ Minesweeper.board b → length row = Z.to_nat w.
Proof.
  intros Hdraws Hn.
  destruct (place_returns h w n draws ∅ (Minesweeper.empty_board h w))
    as [[ms bd] Hplace]; [apply board_of_empty | done | |].
  { rewrite size_empty, union_empty_l_L. done. }
  pose proof (place_drawn _ _ _ _ _ _ _ _ Hplace) as Hsub.
  destruct (place_board _ _ _ _ _ _ _ _ (board_of_empty h w) Hdraws Hplace)
    as ((Hlen & Hrows & Hgrid & _) & Hsize & _).
  exists (Minesweeper.mk h w ms bd ∅). unfold Minesweeper.init.
  rewrite Hplace. cbn. split_and!; try done.
  - by rewrite union_empty_l_L in Hsub.
  - intros row (i & Hi)%list_elem_of_lookup. by eapply Hrows.
Qed.

Lemma new_board_holds_the_mines_asked_for_witness :
  Forall (in_grid 2 3) sample_draws ∧
  ∃ b, Minesweeper.init 2 3 2 sample_draws = Some b ∧
       Z.of_nat (size (Minesweeper.mines b)) = 2%Z.
Proof.
  split; [exact sample_draws_in_grid|].
  destruct (new_board_holds_the_mines_asked_for 2 3 2 sample_draws
              sample_draws_in_grid) as (b & Hb & _ & _ & Hsize & _).
  { rewrite sample_draws_size. lia. }
  by exists b.
Defined.

(** X14: [Minesweeper.__init__] does not return a board when the number
    of mines asked for is negative or greater than the number of cells of
    the grid: whatever cells of the grid [random.randrange] returns, the loop
    that adds mines is still running (or [randrange] has raised, for a height
    or width that is not positive). *)
Theorem new_board_with_too_many_mines_is_never_made
    (h w n : Z) (draws : list cell) :
  Forall (in_grid h w) draws →
  (n < 0 ∨ Z.max 0 h * Z.max 0 w < n)%Z →
  Minesweeper.init h w n draws = None.
Proof.
  intros Hdraws Hn. unfold Minesweeper.init.
  destruct (Minesweeper.place h w draws n ∅ (Minesweeper.empty_board h w))
    as [[ms bd]|] eqn:Hplace; [|done].
  exfalso.
  destruct (place_board _ _ _ _ _ _ _ _ (board_of_empty h w) Hdraws Hplace)
    as ((_ & _ & Hgrid & _) & Hsize & _).
  pose proof (size_in_grid h w ms Hgrid). lia.
Qed.

Lemma new_board_with_too_many_mines_is_never_made_witness :
  Forall (in_grid 2 3) sample_draws ∧
  Minesweeper.init 2 3 7 sample_draws = None ∧
  Minesweeper.init 2 3 (-1) sample_draws = None.
Proof.
  split_and!; [exact sample_draws_in_grid | |].
  - apply (new_board_with_too_many_mines_is_never_made 2 3 7 sample_draws
             sample_draws_in_grid). right. cbn. lia.
  - apply (new_board_with_too_many_mines_is_never_made 2 3 (-1) sample_draws
             sample_draws_in_grid). left. lia.
Defined.

(** X15: on a board made by [Minesweeper.__init__], [nearby_mines]
    returns for every cell, of the grid or not, and never raises; what it
    returns is the number of the cells of the grid, other than the cell, at
    most one row and one column away that are mines, a number from 0 to 8. *)
Theorem nearby_mines_counts_the_mines_around
    (h w n : Z) (draws : list cell) (b : Minesweeper.t) (c : cell) :
  Forall (in_grid h w) draws →
  Minesweeper.init h w n draws = Some b →
  ∃ k, Minesweeper.nearby_mines b c = Some k ∧
       k = Z.of_nat
             (length (filter (λ c', c' ∈ Minesweeper.mines b)
                        (filter (λ c', c' ≠ c ∧ in_grid h w c') (block c)))) ∧
       (0 ≤ k ≤ 8)%Z.
Proof.
  intros Hdraws Hinit.
  destruct (init_board _ _ _ _ _ Hdraws Hinit) as (Hb & Hh & Hw & _).
  rewrite (nearby_mines_spec b (init h w) c) by done.
  eexists. split; [done|]. unfold nearby, neighbours.
  assert (filter (λ c', c' ≠ c ∧ is_cell_valid (init h w) c' = true) (block c)
          = filter (λ c', c' ≠ c ∧ in_grid h w c') (block c)) as ->.
  { apply list_filter_iff. intros c'.
    by rewrite (is_cell_valid_in_grid (init h w) c'). }
  split; [done|].
  pose proof (length_filter (λ c', c' ∈ Minesweeper.mines b)
                (filter (λ c', c' ≠ c ∧ in_grid h w c') (block c))) as Hle.
  pose proof (length_neighbours_le (λ c', in_grid h w c') c) as Hle'.
  lia.
Qed.

Lemma nearby_mines_counts_the_mines_around_witness :
  Forall (in_grid 2 3) sample_draws ∧
  Minesweeper.init 2 3 2 sample_draws = Some sample_board ∧
  Minesweeper.nearby_mines sample_board (1, 1)%Z = Some 2%Z ∧
  Minesweeper.nearby_mines sample_board (5, 5)%Z = Some 0%Z.
Proof.
  assert (∀ c k,
            Z.of_nat
              (length (filter (λ c', c' ∈ Minesweeper.mines sample_board)
                         (filter (λ c', c' ≠ c ∧ in_grid 2 3 c') (block c))))
              = k →
            Minesweeper.nearby_mines sample_board c = Some k) as Hcount.
  { intros c k Hk.
    destruct (nearby_mines_counts_the_mines_around 2 3 2 sample_draws
                sample_board c sample_draws_in_grid sample_board_init)
      as (k' & -> & -> & _).
    by rewrite Hk. }
  split_and!; [exact sample_draws_in_grid | exact sample_board_init | |].
  - apply Hcount. vm_compute. reflexivity.
  - apply Hcount. vm_compute. reflexivity.
Defined.

(** X16: on a board made by [Minesweeper.__init__], [is_mine] of the
    pair (i, j) returns, when i is from [-height] to [height - 1] and j from
    [-width] to [width - 1], whether the cell (i mod height, j mod width) is
    a mine, and raises [IndexError] otherwise.  So it answers for a cell of
    the grid whether the cell is a mine, and, for a negative coordinate,
    answers for the cell counted from the other end. *)
Theorem is_mine_reads_the_field
    (h w n : Z) (draws : list cell) (b : Minesweeper.t) (i j : Z) :
  Forall (in_grid h w) draws →
  Minesweeper.init h w n draws = Some b →
  Minesweeper.is_mine b (i, j) =
    if decide ((- h ≤ i < h)%Z ∧ (- w ≤ j < w)%Z)
    then Some (bool_decide ((i `mod` h, j `mod` w)%Z ∈ Minesweeper.mines b))
    else None.
Proof.
  intros Hdraws Hinit.
  destruct (init_board _ _ _ _ _ Hdraws Hinit) as (Hb & Hh & Hw & _).
  pose proof Hb as (Hlen & Hrows & _). rewrite Hh in Hlen. rewrite Hw in Hrows.
  unfold Minesweeper.is_mine.
  destruct (decide (- h ≤ i < h)%Z) as [Hi|Hi].
  - assert (0 ≤ i `mod` h < h)%Z as Hi' by (apply Z.mod_pos_bound; lia).
    assert (py_get (Minesweeper.board b) i
            = py_get (Minesweeper.board b) (i `mod` h)) as ->.
    { destruct (decide (0 ≤ i)%Z).
      - by rewrite Z.mod_small by lia.
      - rewrite py_get_wraps by lia. f_equal.
        apply (Z.mod_unique_pos i h (-1)); lia. }
    destruct (decide (- w ≤ j < w)%Z) as [Hj|Hj].
    + assert (0 ≤ j `mod` w < w)%Z as Hj' by (apply Z.mod_pos_bound; lia).
      rewrite decide_True by done.
      destruct (board_read _ _ _ _ (i `mod` h) (j `mod` w) Hb)
        as (row & Hrow & Hlrow & -> & _ & Hv).
      { rewrite Hh, Hw. done. }
      cbn [mbind option_bind]. rewrite <- Hv.
      destruct (decide (0 ≤ j)%Z).
      * by rewrite Z.mod_small by lia.
      * rewrite py_get_wraps by lia. f_equal.
        rewrite Hlrow, Hw. apply (Z.mod_unique_pos j w (-1)); lia.
    + rewrite decide_False by tauto.
      destruct (py_get (Minesweeper.board b) (i `mod` h)) as [row|] eqn:Hrow;
        [|done].
      cbn [mbind option_bind]. apply py_get_outside.
      rewrite py_get_in_range in Hrow by lia.
      apply Hrows in Hrow. lia.
  - rewrite decide_False by tauto.
    rewrite py_get_outside by lia. done.
Qed.

Lemma is_mine_reads_the_field_witness :
  Forall (in_grid 2 3) sample_draws ∧
  Minesweeper.init 2 3 2 sample_draws = Some sample_board ∧
  Minesweeper.is_mine sample_board (1, 2)%Z = Some true ∧
  Minesweeper.is_mine sample_board (-1, -1)%Z = Some true ∧
  Minesweeper.is_mine sample_board (2, 0)%Z = None.
Proof.
  split_and!; [exact sample_draws_in_grid | exact sample_board_init | | |].
  - rewrite (is_mine_reads_the_field 2 3 2 sample_draws sample_board 1 2
               sample_draws_in_grid sample_board_init).
    vm_compute. reflexivity.
  - rewrite (is_mine_reads_the_field 2 3 2 sample_draws sample_board (-1) (-1)
               sample_draws_in_grid sample_board_init).
    vm_compute. reflexivity.
  - rewrite (is_mine_reads_the_field 2 3 2 sample_draws sample_board 2 0
               sample_draws_in_grid sample_board_init).
    vm_compute. reflexivity.
Defined.

(** X17: a game of a new engine on a board made by
    [Minesweeper.__init__], of the same height and width: when every cell
    revealed is not a mine and is given to [add_knowledge] with the count that
    [nearby_mines] answers for it, no call raises, and at the end every known
    mine of the engine is a mine of the board, no safe of the engine is one,
    and the cell that [make_safe_move] answers is not a mine of the board. *)
Theorem game_on_a_board_never_errs
    (h w n : Z) (draws : list cell) (b : Minesweeper.t) (cs : list cell) :
  Forall (in_grid h w) draws →
  Minesweeper.init h w n draws = Some b →
  (∀ c, c ∈ cs → c ∉ Minesweeper.mines b) →
  ∃ ai, play b (init h w) cs = Some ai ∧
        mines ai ⊆ Minesweeper.mines b ∧
        safes ai ## Minesweeper.mines b ∧
        ∀ c, (make_safe_move ai).1 = Some c → c ∉ Minesweeper.mines b.
Proof.
  intros Hdraws Hinit Hcs.
  destruct (init_board _ _ _ _ _ Hdraws Hinit) as (Hb & Hh & Hw & _).
  destruct (play_consistent b cs (init h w) Hb (eq_sym Hh) (eq_sym Hw)
              (init_consistent _ h w) Hcs)
    as (ai & Hplay & (Hm & Hs & Hmv & Htrue) & _).
  exists ai. split_and!; try done.
  intros c Hc. apply make_safe_move_safe in Hc. set_solver.
Qed.

Lemma game_on_a_board_never_errs_witness :
  Forall (in_grid 2 3) sample_draws ∧
  Minesweeper.init 2 3 2 sample_draws = Some sample_board ∧
  ∃ ai, play sample_board (init 2 3) [(0, 2); (1, 0)]%Z = Some ai ∧
        safes ai ## Minesweeper.mines sample_board.
Proof.
  split_and!; [exact sample_draws_in_grid | exact sample_board_init |].
  destruct (game_on_a_board_never_errs 2 3 2 sample_draws sample_board
              [(0, 2); (1, 0)]%Z sample_draws_in_grid sample_board_init)
    as (ai & Hplay & _ & Hs & _).
  { intros c Hc. apply (bool_decide_unpack _).
    apply list_elem_of_In in Hc. cbn in Hc.
    destruct Hc as [<-|[<-|[]]]; vm_compute; exact I. }
  exists ai. exact (conj Hplay Hs).
Defined.
